(** * scrinium: the entity repository

    A shallow embedding of [Repository], [createRepository] and of the two
    collaborators they drive ([Lookup] and [DataCompartment]), followed by
    the properties of the entity compartment cache.

    JavaScript objects live on a heap and are shared by reference.  The
    model keeps two stores, one of [Lookup] objects and one of
    [DataCompartment] objects, and the repository's two hashes hold
    references into the first one.  Synchronous calls are functions on the
    state; the one asynchronous method, [modify], is a promise whose
    suspended continuation is resumed by later steps. *)

From stdpp Require Import gmap strings list fin_maps.

(** ** Values shared by every component *)

(** A JavaScript [Error]: only its message is observable here. *)
Record Error := MkError { message : string }.

(** How a synchronous call ends: it returns, or it throws at call time. *)
Inductive Completion (A : Type) : Type :=
| Returns (a : A)
| Throws (e : Error).
Arguments Returns {A} a.
Arguments Throws {A} e.

(** What a promise settles to.  When it settles is the scheduler's choice
    and is modelled by the steps below, not by this type. *)
Inductive Promise (A : Type) : Type :=
| Resolves (a : A)
| Rejects (e : Error).
Arguments Resolves {A} a.
Arguments Rejects {A} e.

(** [Key extends string | number]. *)
Abbreviation Key := (string + Z)%type.

(** References to heap objects: a [DataCompartment] and a [Lookup]. *)
Abbreviation addr := nat (only parsing).
Abbreviation loc := nat (only parsing).

(** One call [entityOptions.resolver.resolve(id)], tagged with the registry
    key the options belong to. *)
Abbreviation ResolverCall := (string * Key)%type.

Definition dquote : string := String (Ascii.ascii_of_nat 34) EmptyString.

(** The error built in [findLookup]:
    [new Error(`Could not find compartment "${String(key)}".`)]. *)
Definition UnknownCategory (key : string) : Error :=
  MkError ("Could not find compartment " +:+ dquote +:+ key +:+ dquote +:+ ".").

(** What [lookup.find(id)] (or [clear], [clearAll]) throws when [lookup]
    has no such method: the engine's [TypeError]. *)
Definition notAFunction (method : string) : Error :=
  MkError ("lookup." +:+ method +:+ " is not a function").

(** The property names every plain object inherits from
    [Object.prototype].  All of them read as a truthy value: eleven are
    functions, and [__proto__] answers the prototype itself. *)
Definition Object_prototype_names : list string :=
  [ "constructor"; "hasOwnProperty"; "isPrototypeOf"; "propertyIsEnumerable";
    "toLocaleString"; "toString"; "valueOf"; "__proto__";
    "__defineGetter__"; "__defineSetter__";
    "__lookupGetter__"; "__lookupSetter__" ].

(** The methods of [ILookup] that the repository calls: every [Lookup]
    instance answers to these names with a function.  The class is
    missing from the sources, so other members it may have are not known. *)
Definition Lookup_method_names : list string := [ "find"; "clear"; "clearAll" ].

(** What reading [this.compartmentLookups[key]] can yield besides
    [undefined]: a [Lookup] stored by the constructor, or a value found
    along the prototype chain under an inherited name, which is truthy
    and is not a [Lookup]. *)
Inductive PropertyValue : Type :=
| LookupRef (lookup : nat)
| Inherited (name : string).

(** Whether a hash that has no own property [key] still answers it with
    an inherited value.  The chain always ends in [Object.prototype]; when
    the assignment [hash["__proto__"] = lookup] has installed a [Lookup] as
    prototype (the entry of the map under that key, see [Repository]
    below), the chain first goes through that [Lookup]. *)
Definition inherited (key : string) (hash : gmap string nat) : bool :=
  bool_decide (key ∈ Object_prototype_names)
  || (bool_decide (is_Some (hash !! "__proto__"))
      && bool_decide (key ∈ Lookup_method_names)).

Section Scrinium.

Context {Entity DataStoreToken RetentionOptions : Type}.

(** [token.compartment(key)]: the class [DataStoreToken] lives in a module
    of its own; its one method used here is a parameter. *)
Variable compartment : DataStoreToken -> string -> DataStoreToken.

(** ** Resolvers and options *)

Record IEntityResolver := { resolve : Key -> Promise Entity }.

Definition ConfiguredEntityResolver (resolver : Key -> Promise Entity)
  : IEntityResolver :=
  {| resolve := fun key => resolver key |}.

Record RepositoryCompartmentOptions := {
  retention : option RetentionOptions;
  resolver : IEntityResolver;
}.

(** Modelled from the spec: [ConfiguredDataSource] (the resolver adapter of
    section 4.4) is missing from the sources.  It wraps an async thunk; the
    thunk is kept as a function that yields the resolver calls it makes and
    the promise it returns. *)
Record ConfiguredDataSource := {
  load : unit -> list ResolverCall * Promise Entity;
}.

Record LoadingOptions := { strategy : string }.

(** The option object literal built in [createRepository]. *)
Record DataCompartmentOptions := {
  loadingOptions : LoadingOptions;
  opt_retention : option RetentionOptions;
  defaultValue : option Entity;
  source : ConfiguredDataSource;
}.

(** ** DataCompartment (the spec's Cell) *)

(** Modelled from the spec: the class [DataCompartment] is missing from the
    sources.  Section 3 gives a Cell a current value that is absent until
    the first load completes, a replay-latest stream, a source and a load
    policy; section 4.1 gives at most one load in flight and a failure that
    keeps the previous value.  [stream] is the history of emissions, oldest
    first.  Retention expiry depends on wall-clock time and is kept as
    configuration only. *)
Record DataCompartment := {
  dc_token : DataStoreToken;
  dc_options : DataCompartmentOptions;
  value : option Entity;
  stream : list Entity;
  inflight : option (Promise Entity);
  failure : option Error;
}.

(** The compartments allocated so far and the log of resolver calls. *)
Record Heap := {
  cells : list DataCompartment;
  resolverCalls : list ResolverCall;
}.

Definition set_cell (a : addr) (c : DataCompartment) (h : Heap) : Heap :=
  {| cells := <[a := c]> (cells h); resolverCalls := resolverCalls h |}.

(** Modelled from the spec: starting a load invokes the source once; a Cell
    with a load outstanding never starts a second one (section 4.1). *)
Definition triggerLoad (a : addr) (h : Heap) : Heap :=
  match cells h !! a with
  | Some c =>
      match inflight c with
      | Some _ => h
      | None =>
          let '(calls, p) := load (source (dc_options c)) tt in
          {| cells := <[a := {| dc_token := dc_token c;
                                dc_options := dc_options c;
                                value := value c;
                                stream := stream c;
                                inflight := Some p;
                                failure := None |}]> (cells h);
             resolverCalls := resolverCalls h ++ calls |}
      end
  | None => h
  end.

(** Modelled from the spec: [new DataCompartment(token, options)].  The new
    Cell has no value; with the load policy [auto] its source is invoked
    immediately on creation (section 3). *)
Definition new_DataCompartment (tok : DataStoreToken)
    (options : DataCompartmentOptions) (h : Heap) : Heap * addr :=
  let a := length (cells h) in
  let h1 := {| cells := cells h ++ [ {| dc_token := tok;
                                         dc_options := options;
                                         value := None;
                                         stream := [];
                                         inflight := None;
                                         failure := None |} ];
               resolverCalls := resolverCalls h |} in
  (if decide (strategy (loadingOptions options) = "auto")
   then triggerLoad a h1 else h1, a).

(** Modelled from the spec: [next(value)], the spec's [push]: replaces the
    current value and emits it; the source is not invoked (section 4.1). *)
Definition next (a : addr) (v : Entity) (h : Heap) : Heap :=
  match cells h !! a with
  | Some c =>
      set_cell a {| dc_token := dc_token c;
                    dc_options := dc_options c;
                    value := Some v;
                    stream := stream c ++ [v];
                    inflight := inflight c;
                    failure := failure c |} h
  | None => h
  end.

(** Modelled from the spec: the load in flight on Cell [a] settles.  A
    resolved load replaces the value and emits it; a rejected one keeps the
    previous value and leaves the Cell in its error state (section 4.1). *)
Definition settle (a : addr) (h : Heap) : Heap :=
  match cells h !! a with
  | Some c =>
      match inflight c with
      | Some (Resolves v) =>
          set_cell a {| dc_token := dc_token c;
                        dc_options := dc_options c;
                        value := Some v;
                        stream := stream c ++ [v];
                        inflight := None;
                        failure := None |} h
      | Some (Rejects e) =>
          set_cell a {| dc_token := dc_token c;
                        dc_options := dc_options c;
                        value := value c;
                        stream := stream c;
                        inflight := None;
                        failure := Some e |} h
      | None => h
      end
  | None => h
  end.

(** Modelled from the spec: subscribing a [read()] to Cell [a].  With a
    value present nothing happens; with none, the read awaits the load in
    flight or triggers a new one (section 4.1). *)
Definition read_subscribe (a : addr) (h : Heap) : Heap :=
  match cells h !! a with
  | Some c =>
      match value c with
      | Some _ => h
      | None => triggerLoad a h
      end
  | None => h
  end.

(** ** Lookup (the spec's KeyedCache) *)

(** Modelled from the spec: the class [Lookup] is missing from the sources.
    Section 4.2: a factory given at construction and a map from key to
    Cell, filled on demand by [find] and emptied by [clear] and
    [clearAll].  The map holds references to compartments. *)
Record ILookup := {
  factory : Key -> Heap -> Heap * addr;
  values : gmap Key addr;
}.

(** Modelled from the spec: [new Lookup(factory)] starts with no mapping;
    Cells are created on demand (section 3). *)
Definition new_Lookup (f : Key -> Heap -> Heap * addr) : ILookup :=
  {| factory := f; values := ∅ |}.

(** ** The repository object and the program state *)

(** [lookups] is the object given to the constructor, by its own
    enumerable entries: what [Object.entries] lists, which is the only way
    the class reads it.

    [compartmentLookups] starts as the plain object [{}] and is written
    only by the constructor's [this.compartmentLookups[key] = value].  For
    every key but [__proto__] that assignment adds an own property.  For
    [__proto__] it installs [value] as the prototype of the hash, and
    reading [__proto__] afterwards answers that prototype: the entry of
    the map under [__proto__] stands for it.  A key with no entry in the
    map is read along the prototype chain, see [findLookup]. *)
Record Repository := {
  token : DataStoreToken;
  managedTokens : list DataStoreToken;
  lookups : gmap string loc;
  compartmentLookups : gmap string loc;
}.

Record State := {
  this : Repository;
  lookupHeap : list ILookup;
  heap : Heap;
}.

Definition set_heap (h : Heap) (s : State) : State :=
  {| this := this s; lookupHeap := lookupHeap s; heap := h |}.

Definition set_lookup (l : loc) (L : ILookup) (s : State) : State :=
  {| this := this s; lookupHeap := <[l := L]> (lookupHeap s); heap := heap s |}.

(** A synchronous method: it transforms the state and returns or throws. *)
Definition M (A : Type) : Type := State -> State * Completion A.

Definition ret {A} (a : A) : M A := fun s => (s, Returns a).

Definition throw {A} (e : Error) : M A := fun s => (s, Throws e).

Definition bind {A B} (m : M A) (k : A -> M B) : M B :=
  fun s =>
    match m s with
    | (s1, Returns a) => k a s1
    | (s1, Throws e) => (s1, Throws e)
    end.

Local Notation "m >>= k" := (bind m k) (at level 58, left associativity).

Fixpoint forEach {A} (entries : list A) (f : A -> M unit) : M unit :=
  match entries with
  | [] => ret tt
  | x :: rest => f x >>= fun _ => forEach rest f
  end.

(** A reference is always to an allocated object in JavaScript; the
    methods below answer with this error on any other reference so that
    they stay total. *)
Definition danglingReference : Error := MkError "reference to no object".

(** Modelled from the spec: [find(key)] returns the Cell for [key],
    creating it through the factory if absent (section 4.2). *)
Definition Lookup_find (l : loc) (key : Key) : M addr :=
  fun s =>
    match lookupHeap s !! l with
    | Some L =>
        match values L !! key with
        | Some a => (s, Returns a)
        | None =>
            let '(h1, a) := factory L key (heap s) in
            (set_lookup l {| factory := factory L;
                             values := <[key := a]> (values L) |}
               (set_heap h1 s), Returns a)
        end
    | None => (s, Throws danglingReference)
    end.

(** Modelled from the spec: [clear(key)] removes the mapping for [key]. *)
Definition Lookup_clear (l : loc) (key : Key) : M unit :=
  fun s =>
    match lookupHeap s !! l with
    | Some L =>
        (set_lookup l {| factory := factory L;
                         values := delete key (values L) |} s, Returns tt)
    | None => (s, Throws danglingReference)
    end.

(** Modelled from the spec: [clearAll()] removes every mapping. *)
Definition Lookup_clearAll (l : loc) : M unit :=
  fun s =>
    match lookupHeap s !! l with
    | Some L =>
        (set_lookup l {| factory := factory L; values := ∅ |} s, Returns tt)
    | None => (s, Throws danglingReference)
    end.

(** ** Repository *)

(** The constructor assigns every own entry of [lookups] to the fresh
    hash.  With [compartmentLookups] read as described above, each
    assignment, the one to [__proto__] included, is an insertion. *)
Definition new_Repository (tok : DataStoreToken)
    (managed : list DataStoreToken) (lookups : gmap string loc) : Repository :=
  let entries := map_to_list lookups in
  {| token := tok;
     managedTokens := managed;
     lookups := lookups;
     compartmentLookups :=
       foldl (fun acc '(key, value) => <[key := value]> acc) ∅ entries |}.

(** [this.compartmentLookups[key]]: an own property (or the installed
    prototype under [__proto__]) is a [Lookup] and is truthy; otherwise the
    key is read along the prototype chain, where an inherited name yields
    a truthy value that is returned as if it were a [Lookup]; only a key
    that is found nowhere reads as [undefined] and throws. *)
Definition findLookup (key : string) : M PropertyValue :=
  fun s =>
    match compartmentLookups (this s) !! key with
    | Some lookup => ret (LookupRef lookup) s
    | None =>
        if inherited key (compartmentLookups (this s))
        then ret (Inherited key) s
        else throw (UnknownCategory key) s
    end.

(** [lookup.method(...)] on what [findLookup] returned: a [Lookup] runs
    its method; an inherited value has no property of that name. *)
Definition call {A} (lookup : PropertyValue) (name : string)
    (method : loc -> M A) : M A :=
  match lookup with
  | LookupRef l => method l
  | Inherited _ => throw (notAFunction name)
  end.

Definition clear (key : string) (id : Key) : M unit :=
  findLookup key >>= fun lookup =>
  call lookup "clear" (fun l => Lookup_clear l id).

Definition clearAll (key : string) : M unit :=
  findLookup key >>= fun lookup =>
  call lookup "clearAll" (fun l => Lookup_clearAll l).

Definition get (key : string) (id : Key) : M addr :=
  findLookup key >>= fun lookup =>
  call lookup "find" (fun l => Lookup_find l id).

Definition reset : M unit :=
  fun s =>
    let entries := map_to_list (lookups (this s)) in
    forEach entries (fun '(_, value) => Lookup_clearAll value) s.

(** *** modify

    The promise returned by the async method, together with the
    continuation it is suspended in. *)
Inductive ModifyPromise : Type :=
| AwaitingValue (c : addr) (modifier : Entity -> Promise Entity)
| AwaitingModifier (c : addr) (newValue : Promise Entity)
| Fulfilled
| Rejected (e : Error).

(** An [async] function never throws at call time: an exception raised
    before its first [await] rejects the promise it returns. *)
Definition async (body : M ModifyPromise) : M ModifyPromise :=
  fun s =>
    match body s with
    | (s1, Throws e) => (s1, Returns (Rejected e))
    | (s1, Returns p) => (s1, Returns p)
    end.

(** The call runs up to the first [await]: [get], then the subscription
    made by [firstValueFrom(compartment.value$)]. *)
Definition modify (key : string) (id : Key)
    (modifier : Entity -> Promise Entity) : M ModifyPromise :=
  async (get key id >>= fun stronglyTypedCompartment =>
         fun s => (set_heap (read_subscribe stronglyTypedCompartment (heap s)) s,
                   Returns (AwaitingValue stronglyTypedCompartment modifier))).

(** One resumption of a suspended [modify].  At the first [await] it goes
    on once the compartment has a value, or once its load has failed,
    which rejects the read (how a read settles follows section 4.1 of the
    spec); at the second it goes on with what the modifier's promise
    settled to, and only a resolved one reaches [next]. *)
Definition resume (p : ModifyPromise) (s : State) : State * ModifyPromise :=
  match p with
  | AwaitingValue c modifier =>
      match cells (heap s) !! c with
      | Some cell =>
          match value cell, inflight cell, failure cell with
          | Some currentValue, _, _ =>
              (s, AwaitingModifier c (modifier currentValue))
          | None, None, Some e => (s, Rejected e)
          | None, _, _ => (s, p)
          end
      | None => (s, p)
      end
  | AwaitingModifier c (Resolves newValue) =>
      (set_heap (next c newValue (heap s)) s, Fulfilled)
  | AwaitingModifier c (Rejects e) => (s, Rejected e)
  | Fulfilled => (s, Fulfilled)
  | Rejected e => (s, Rejected e)
  end.

(** ** createRepository *)

(** The factory handed to [new Lookup] for the registry entry
    [(key, value)]. *)
Definition entityFactory (tok : DataStoreToken) (key : string)
    (value : RepositoryCompartmentOptions) : Key -> Heap -> Heap * addr :=
  fun id =>
    let entityOptions := value in
    let options :=
      {| loadingOptions := {| strategy := "auto" |};
         opt_retention := retention entityOptions;
         defaultValue := None;
         source :=
           {| load := fun _ =>
                ([(key, id)], resolve (resolver entityOptions) id) |} |} in
    new_DataCompartment (compartment tok key) options.

(** [registry] is given by its [Object.entries]; each entry allocates one
    [Lookup] and assigns it to [lookups[key]].  [lookups] is a plain object
    handed to the constructor, which reads its own entries: the assignment
    adds one for every key but [__proto__], for which it sets the
    prototype of [lookups] and adds none. *)
Definition createRepository (tok : DataStoreToken)
    (registry : list (string * RepositoryCompartmentOptions))
    (mem : list ILookup) (h : Heap) : State :=
  let entries := registry in
  let managedTokens := map (fun '(key, _) => compartment tok key) entries in
  let '(lookups, mem1) :=
    foldl (fun '(lookups, mem) '(key, value) =>
             (if decide (key = "__proto__") then lookups
              else <[key := length mem]> lookups,
              mem ++ [new_Lookup (entityFactory tok key value)]))
          (∅, mem) entries in
  {| this := new_Repository tok managedTokens lookups;
     lookupHeap := mem1;
     heap := h |}.

(** ** Executions *)

(** [modify] when nothing else is scheduled: while the read waits for a
    load, the next thing to happen is that this load settles; otherwise
    the continuation resumes. *)
Definition advance (p : ModifyPromise) (s : State) : State * ModifyPromise :=
  match p with
  | AwaitingValue c _ =>
      match cells (heap s) !! c with
      | Some cell =>
          match value cell, inflight cell with
          | None, Some _ => (set_heap (settle c (heap s)) s, p)
          | _, _ => resume p s
          end
      | None => resume p s
      end
  | _ => resume p s
  end.

Fixpoint complete (fuel : nat) (p : ModifyPromise) (s : State)
  : State * ModifyPromise :=
  match fuel with
  | 0 => (s, p)
  | S fuel' => let '(s1, p1) := advance p s in complete fuel' p1 s1
  end.

(** The call followed by at most three further steps: the load settles,
    the read resumes, the modifier's promise resumes.  The second branch
    is never taken: an async call returns its promise. *)
Definition modify_alone (key : string) (id : Key)
    (modifier : Entity -> Promise Entity) (s : State)
  : State * ModifyPromise :=
  match modify key id modifier s with
  | (s1, Returns p) => complete 3 p s1
  | (s1, Throws e) => (s1, Rejected e)
  end.

(** [n] calls of [get] for the same category and id, one after the other,
    with the compartment each of them returned. *)
Fixpoint get_times (n : nat) (key : string) (id : Key) (s : State)
  : State * list (Completion addr) :=
  match n with
  | 0 => (s, [])
  | S n' =>
      let '(s1, r) := get key id s in
      let '(s2, rs) := get_times n' key id s1 in
      (s2, r :: rs)
  end.

(** Everything that can happen to a repository: a call of one of its
    methods, a load that settles, a suspended [modify] that resumes. *)
Inductive Event : Type :=
| CallGet (key : string) (id : Key)
| CallClear (key : string) (id : Key)
| CallClearAll (key : string)
| CallModify (key : string) (id : Key) (modifier : Entity -> Promise Entity)
| CallReset
| LoadSettles (a : addr)
| ModifyResumes (p : ModifyPromise).

Definition step (s : State) (ev : Event) : State :=
  match ev with
  | CallGet key id => (get key id s).1
  | CallClear key id => (clear key id s).1
  | CallClearAll key => (clearAll key s).1
  | CallModify key id modifier => (modify key id modifier s).1
  | CallReset => (reset s).1
  | LoadSettles a => set_heap (settle a (heap s)) s
  | ModifyResumes p => (resume p s).1
  end.

Definition run (evs : list Event) (s : State) : State := foldl step s evs.

(** The entries of a registry that [createRepository] registers: all but
    an entry whose key is [__proto__]. *)
Definition registered
    (registry : list (string * RepositoryCompartmentOptions))
  : list (string * RepositoryCompartmentOptions) :=
  filter (fun entry => entry.1 ≠ "__proto__") registry.

(** A state of a repository made by [createRepository], [registry] being
    the entries it registered: both hashes agree, their keys are the
    registry's, every key refers to a [Lookup] of its own whose factory is
    the one built for that entry. *)
Definition built (tok : DataStoreToken)
    (registry : list (string * RepositoryCompartmentOptions))
    (s : State) : Prop :=
  lookups (this s) = compartmentLookups (this s)
  ∧ (∀ key lookup, compartmentLookups (this s) !! key = Some lookup →
       key ∈ registry.*1)
  ∧ (∀ key opts, (key, opts) ∈ registry →
       ∃ lookup L, compartmentLookups (this s) !! key = Some lookup
                   ∧ lookupHeap s !! lookup = Some L
                   ∧ factory L = entityFactory tok key opts)
  ∧ (∀ k1 k2 lookup, compartmentLookups (this s) !! k1 = Some lookup →
       compartmentLookups (this s) !! k2 = Some lookup → k1 = k2).

(** [s'] extends [s] when the repository object is the same and every
    [Lookup] allocated in [s] is still there with the factory it was
    constructed with. *)
Definition extends (s s' : State) : Prop :=
  this s' = this s
  ∧ ∀ l L, lookupHeap s !! l = Some L →
      ∃ L', lookupHeap s' !! l = Some L' ∧ factory L' = factory L.

End Scrinium.

(** ** A sample repository

    The [videos] scenario of the documentation: videos are looked up by a
    string id, and the resolver answers with the video titled after it. *)

Record Video := { video_id : string; title : string }.

Definition sampleCompartment (t : list string) (key : string) : list string :=
  t ++ [key].

Definition videoResolver : @IEntityResolver Video :=
  ConfiguredEntityResolver
    (fun id =>
       match id with
       | inl s => Resolves {| video_id := s; title := "T" +:+ s |}
       | inr _ => Rejects (MkError "no such video")
       end).

Definition videosOptions : @RepositoryCompartmentOptions Video nat :=
  {| retention := None; resolver := videoResolver |}.

Definition sampleRegistry
  : list (string * @RepositoryCompartmentOptions Video nat) :=
  [ ("videos", videosOptions);
    ("drafts", {| retention := Some 60; resolver := videoResolver |}) ].

Definition sampleState : @State Video (list string) nat :=
  createRepository sampleCompartment ["app"] sampleRegistry []
    {| cells := []; resolverCalls := [] |}.

(** Video 1 has been requested and its load has settled. *)
Definition loadedState : @State Video (list string) nat :=
  run [CallGet "videos" (inl "1"); LoadSettles 0] sampleState.

Definition retitle (v : Video) : Promise Video :=
  Resolves {| video_id := video_id v; title := "Updated" |}.

Definition failingModifier (v : Video) : Promise Video :=
  Rejects (MkError "modifier failed").

(** The [Lookup] of [videos] as [createRepository] leaves it. *)
Definition videosLookup : @ILookup Video (list string) nat :=
  new_Lookup (entityFactory sampleCompartment ["app"] "videos" videosOptions).

(** The compartment of video 1 once its load has settled. *)
Definition loadedVideo : @DataCompartment Video (list string) nat :=
  {| dc_token := ["app"; "videos"];
     dc_options :=
       {| loadingOptions := {| strategy := "auto" |};
          opt_retention := None;
          defaultValue := None;
          source := {| load := fun _ =>
            ([("videos", inl "1")], resolve videoResolver (inl "1")) |} |};
     value := Some {| video_id := "1"; title := "T1" |};
     stream := [ {| video_id := "1"; title := "T1" |} ];
     inflight := None;
     failure := None |}.

(** A repository made with the constructor itself, handing the one
    [Lookup] of [videos] to two keys. *)
Definition sharedState : @State Video (list string) nat :=
  {| this := new_Repository ["app"] [] {[ "videos" := 0; "films" := 0 ]};
     lookupHeap := [videosLookup];
     heap := {| cells := []; resolverCalls := [] |} |}.

(** The [Lookup] of [videos] in [loadedState]: video 1 is cached. *)
Definition loadedVideosLookup : @ILookup Video (list string) nat :=
  {| factory := factory videosLookup; values := {[ inl "1" := 0 ]} |}.

(** A modifier that keeps the title it reads and marks it. *)
Definition shout (v : Video) : Promise Video :=
  Resolves {| video_id := video_id v; title := title v +:+ "!" |}.

(** A registry with an own entry [__proto__], as [JSON.parse] or a
    computed key can make one, and the repository made from it. *)
Definition protoRegistry
  : list (string * @RepositoryCompartmentOptions Video nat) :=
  [ ("__proto__", videosOptions); ("videos", videosOptions) ].

Definition protoState : @State Video (list string) nat :=
  createRepository sampleCompartment ["app"] protoRegistry []
    {| cells := []; resolverCalls := [] |}.

(** A repository made with the constructor from an object whose own
    entry [__proto__] holds a [Lookup]. *)
Definition protoLookupsState : @State Video (list string) nat :=
  {| this := new_Repository ["app"] [] {[ "__proto__" := 0 ]};
     lookupHeap := [videosLookup];
     heap := {| cells := []; resolverCalls := [] |} |}.

(** * Properties *)

Section Properties.

Context {Entity DataStoreToken RetentionOptions : Type}.
Variable compartment : DataStoreToken -> string -> DataStoreToken.

Local Abbreviation State := (@State Entity DataStoreToken RetentionOptions).
Local Abbreviation Heap := (@Heap Entity DataStoreToken RetentionOptions).
Local Abbreviation ILookup := (@ILookup Entity DataStoreToken RetentionOptions).
Local Abbreviation Options := (@RepositoryCompartmentOptions Entity RetentionOptions).
Local Abbreviation Event := (@Event Entity).

Implicit Types (s : State) (h : Heap) (L : ILookup) (key : string) (id : Key).

(** ** The constructor's copy of the hash *)

Lemma foldl_insert_lookup (l : list (string * nat)) (acc : gmap string nat) k :
  NoDup l.*1 →
  foldl (fun acc '(key, value) => <[key := value]> acc) acc l !! k
  = match (list_to_map l : gmap string nat) !! k with
    | Some v => Some v
    | None => acc !! k
    end.
Proof.
  revert acc. induction l as [|[k0 v0] l IH]; intros acc Hnd; simpl.
  - by rewrite lookup_empty.
  - inversion Hnd as [|? ? Hk0 Hnd']; subst.
    rewrite IH by done.
    destruct (decide (k = k0)) as [->|Hne].
    + rewrite lookup_insert_eq.
      rewrite (not_elem_of_list_to_map_1 _ k0 Hk0).
      by rewrite lookup_insert_eq.
    + rewrite (lookup_insert_ne (list_to_map l)) by done.
      destruct (list_to_map l !! k); [done|].
      by rewrite lookup_insert_ne.
Qed.

Lemma new_Repository_compartmentLookups (tok : DataStoreToken) managed
    (lks : gmap string nat) :
  compartmentLookups (new_Repository tok managed lks) = lks.
Proof.
  unfold new_Repository; simpl. apply map_eq; intros k.
  rewrite foldl_insert_lookup by apply NoDup_fst_map_to_list.
  rewrite list_to_map_to_list, lookup_empty.
  by destruct (lks !! k).
Qed.

(** ** What a step leaves alone *)

Lemma extends_refl s : extends s s.
Proof. split; [done|]. eauto. Qed.

Lemma extends_trans s1 s2 s3 : extends s1 s2 → extends s2 s3 → extends s1 s3.
Proof.
  intros [Ht1 Hl1] [Ht2 Hl2]. split; [congruence|].
  intros l L HL. destruct (Hl1 _ _ HL) as (L1 & HL1 & Hf1).
  destruct (Hl2 _ _ HL1) as (L2 & HL2 & Hf2). exists L2. split; [done|congruence].
Qed.

Lemma extends_set_heap h s : extends s (set_heap h s).
Proof. split; [done|]. simpl. eauto. Qed.

Lemma extends_set_lookup l L0 L1 s :
  lookupHeap s !! l = Some L0 → factory L1 = factory L0 →
  extends s (set_lookup l L1 s).
Proof.
  intros H0 Hf. split; [done|]. simpl. intros l' L HL.
  destruct (decide (l' = l)) as [->|Hne].
  - exists L1. rewrite list_lookup_insert_eq by (by eapply lookup_lt_Some).
    split; [done|congruence].
  - exists L. by rewrite list_lookup_insert_ne.
Qed.

Lemma extends_Lookup_find l id s : extends s (Lookup_find l id s).1.
Proof.
  unfold Lookup_find. destruct (lookupHeap s !! l) as [L|] eqn:HL; [|apply extends_refl].
  destruct (values L !! id); [apply extends_refl|].
  destruct (factory L id (heap s)) as [h1 a]; simpl.
  eapply extends_trans; [apply (extends_set_heap h1)|].
  by eapply extends_set_lookup.
Qed.

Lemma extends_Lookup_clear l id s : extends s (Lookup_clear l id s).1.
Proof.
  unfold Lookup_clear. destruct (lookupHeap s !! l) as [L|] eqn:HL; [|apply extends_refl].
  by eapply extends_set_lookup.
Qed.

Lemma extends_Lookup_clearAll l s : extends s (Lookup_clearAll l s).1.
Proof.
  unfold Lookup_clearAll. destruct (lookupHeap s !! l) as [L|] eqn:HL; [|apply extends_refl].
  by eapply extends_set_lookup.
Qed.

Lemma extends_bind_findLookup {A} key (k : PropertyValue → M A) s :
  (∀ v, extends s (k v s).1) → extends s (bind (findLookup key) k s).1.
Proof.
  intros Hk. unfold bind, findLookup, ret, throw.
  destruct (compartmentLookups (this s) !! key); [apply Hk|].
  destruct (inherited key _); [apply Hk|apply extends_refl].
Qed.

Lemma extends_call {A} (v : PropertyValue) name (method : nat → M A) s :
  (∀ l, extends s (method l s).1) → extends s (call v name method s).1.
Proof. intros Hm. destruct v; [apply Hm|apply extends_refl]. Qed.

Lemma extends_forEach {A} (entries : list A) (f : A → M unit) s :
  (∀ x s0, extends s0 (f x s0).1) → extends s (forEach entries f s).1.
Proof.
  intros Hf. revert s. induction entries as [|x rest IH]; intros s; simpl.
  - apply extends_refl.
  - unfold bind. specialize (Hf x s). destruct (f x s) as [s1 [[]|e]]; simpl in *.
    + eapply extends_trans; [exact Hf|apply IH].
    + done.
Qed.

Lemma extends_get key id s : extends s (get key id s).1.
Proof.
  apply extends_bind_findLookup. intros v. apply extends_call.
  intros l. apply extends_Lookup_find.
Qed.

Lemma extends_modify key id modifier s : extends s (modify key id modifier s).1.
Proof.
  unfold modify, async, bind at 1.
  pose proof (extends_get key id s) as Hg.
  destruct (get key id s) as [s1 [c|e]]; simpl in *; [|done].
  eapply extends_trans; [exact Hg|apply extends_set_heap].
Qed.

Lemma extends_resume p s : extends s (resume p s).1.
Proof.
  destruct p as [c modifier|c [v|e]| |e]; simpl;
    try apply extends_refl; try apply extends_set_heap.
  repeat case_match; apply extends_refl.
Qed.

Lemma extends_step s (ev : Event) : extends s (step s ev).
Proof.
  destruct ev; simpl.
  - apply extends_get.
  - apply extends_bind_findLookup. intros v. apply extends_call.
    intros l. apply extends_Lookup_clear.
  - apply extends_bind_findLookup. intros v. apply extends_call.
    intros l. apply extends_Lookup_clearAll.
  - apply extends_modify.
  - unfold reset. apply extends_forEach. intros [k l] s0. apply extends_Lookup_clearAll.
  - apply extends_set_heap.
  - apply extends_resume.
Qed.

Lemma extends_run (evs : list Event) s : extends s (run evs s).
Proof.
  unfold run. revert s. induction evs as [|ev evs IH]; intros s; simpl.
  - apply extends_refl.
  - eapply extends_trans; [apply extends_step|apply IH].
Qed.

Lemma built_extends tok (registry : list (string * Options)) s s' :
  built compartment tok registry s → extends s s' →
  built compartment tok registry s'.
Proof.
  intros (Heq & Hdom & Hreg & Hinj) [Hthis Hl].
  unfold built. rewrite Hthis. repeat split; try done.
  intros key opts Hin. destruct (Hreg _ _ Hin) as (l & L & Hk & HL & Hf).
  destruct (Hl _ _ HL) as (L' & HL' & Hf'). exists l, L'.
  repeat split; [done|done|congruence].
Qed.

(** ** createRepository *)

Lemma entityFactory_creates tok key (opts : Options) id h :
  entityFactory compartment tok key opts id h
  = ({| cells := cells h ++
          [ {| dc_token := compartment tok key;
               dc_options :=
                 {| loadingOptions := {| strategy := "auto" |};
                    opt_retention := retention opts;
                    defaultValue := None;
                    source := {| load := fun _ =>
                      ([(key, id)], resolve (resolver opts) id) |} |};
               value := None;
               stream := [];
               inflight := Some (resolve (resolver opts) id);
               failure := None |} ];
        resolverCalls := resolverCalls h ++ [(key, id)] |},
     length (cells h)).
Proof.
  unfold entityFactory, new_DataCompartment; simpl.
  f_equal. unfold triggerLoad; simpl.
  rewrite lookup_app_r by lia. rewrite Nat.sub_diag; simpl.
  f_equal. rewrite <- (Nat.add_0_r (length (cells h))) at 1.
  by rewrite insert_app_r.
Qed.

Lemma createRepository_lookups tok (entries : list (string * Options)) :
  ∀ (lk : gmap string nat) (mem : list ILookup),
    NoDup entries.*1 →
    ∀ lk' mem',
      foldl (fun '(lookups, mem) '(key, value) =>
               (if decide (key = "__proto__") then lookups
                else <[key := length mem]> lookups,
                mem ++ [new_Lookup (entityFactory compartment tok key value)]))
            (lk, mem) entries = (lk', mem') →
      mem' = mem ++ ((fun e => new_Lookup (entityFactory compartment tok e.1 e.2))
                       <$> entries)
      ∧ (∀ key, key ∉ entries.*1 ∨ key = "__proto__" → lk' !! key = lk !! key)
      ∧ (∀ i key value, entries !! i = Some (key, value) →
           key ≠ "__proto__" → lk' !! key = Some (length mem + i)).
Proof.
  induction entries as [|[k0 v0] es IH]; intros lk mem Hnd lk' mem' Hfold;
    simpl in Hfold.
  - simplify_eq. rewrite app_nil_r. split; [done|]. split; [done|].
    intros i ? ? Hi. done.
  - inversion Hnd as [|? ? Hk0 Hnd']; subst.
    destruct (IH _ _ Hnd' _ _ Hfold) as (Hmem & Hout & Hin).
    rewrite length_app in Hin; simpl in Hin.
    split; [|split].
    + rewrite Hmem. by rewrite <- app_assoc.
    + intros key Hkey. destruct (decide (k0 = "__proto__")) as [->|Hk0p].
      * apply Hout. destruct Hkey as [Hkey|Hkey]; [|by right].
        simpl in Hkey. apply not_elem_of_cons in Hkey as [_ Hkey]. by left.
      * destruct Hkey as [Hkey | ->].
        -- simpl in Hkey. apply not_elem_of_cons in Hkey as [Hne Hkey].
           rewrite Hout by (by left). by rewrite lookup_insert_ne.
        -- rewrite Hout by (by right). by rewrite lookup_insert_ne.
    + intros [|i] key value Hi Hp; simpl in Hi.
      * simplify_eq. rewrite Hout by (by left).
        destruct (decide (key = "__proto__")); [done|].
        rewrite lookup_insert_eq. f_equal; lia.
      * rewrite (Hin _ _ _ Hi Hp). f_equal; lia.
Qed.

Lemma createRepository_shape tok (registry : list (string * Options))
    (mem : list ILookup) h :
  NoDup registry.*1 →
  ∃ lk : gmap string nat,
    createRepository compartment tok registry mem h
    = {| this := new_Repository tok
                   (map (fun '(key, _) => compartment tok key) registry) lk;
         lookupHeap :=
           mem ++ ((fun e => new_Lookup (entityFactory compartment tok e.1 e.2))
                     <$> registry);
         heap := h |}
    ∧ (∀ key, key ∉ registry.*1 ∨ key = "__proto__" → lk !! key = None)
    ∧ (∀ i key value, registry !! i = Some (key, value) →
         key ≠ "__proto__" → lk !! key = Some (length mem + i)).
Proof.
  intros Hnd. unfold createRepository.
  destruct (foldl _ (∅, mem) registry) as [lk' mem'] eqn:Hfold.
  destruct (createRepository_lookups tok registry ∅ mem Hnd _ _ Hfold)
    as (Hmem & Hout & Hin).
  exists lk'. split; [by rewrite Hmem|]. split; [|done].
  intros key Hn. by rewrite (Hout _ Hn), lookup_empty.
Qed.

(** Whatever the registry, the hash of the repository it makes has the
    prototype of a plain object: nothing is stored under [__proto__]. *)
Lemma createRepository_installs_no_prototype tok
    (registry : list (string * Options)) (mem : list ILookup) h :
  compartmentLookups (this (createRepository compartment tok registry mem h))
    !! "__proto__" = None.
Proof.
  unfold createRepository.
  destruct (foldl _ (∅, mem) registry) as [lk' mem'] eqn:Hfold.
  cbn [this]. rewrite new_Repository_compartmentLookups.
  assert (∀ (es : list (string * Options)) (lk : gmap string nat) m lk1 m1,
            lk !! "__proto__" = None →
            foldl (fun '(lookups, mem) '(key, value) =>
                     (if decide (key = "__proto__") then lookups
                      else <[key := length mem]> lookups,
                      mem ++ [new_Lookup (entityFactory compartment tok key value)]))
                  (lk, m) es = (lk1, m1) →
            lk1 !! "__proto__" = None) as Hinv.
  { induction es as [|[k0 v0] es IH]; intros lk m lk1 m1 Hlk Hf; simpl in Hf.
    - by simplify_eq.
    - eapply IH; [|exact Hf]. destruct (decide (k0 = "__proto__")); [done|].
      by rewrite lookup_insert_ne. }
  eapply Hinv; [|exact Hfold]. apply lookup_empty.
Qed.

Lemma registered_entry (registry : list (string * Options)) key opts :
  (key, opts) ∈ registered registry ↔ key ≠ "__proto__" ∧ (key, opts) ∈ registry.
Proof. unfold registered. by rewrite list_elem_of_filter. Qed.

Lemma registered_all (registry : list (string * Options)) :
  "__proto__" ∉ registry.*1 → registered registry = registry.
Proof.
  unfold registered. induction registry as [|[k v] r IH]; intros Hn; [done|].
  simpl in Hn. apply not_elem_of_cons in Hn as [Hne Hn].
  rewrite filter_cons_True by (simpl; congruence). by rewrite IH.
Qed.

(** Whatever the registry, the repository it makes is built from the
    entries it registered. *)
Lemma createRepository_built_registered tok
    (registry : list (string * Options)) (mem : list ILookup) h :
  NoDup registry.*1 →
  built compartment tok (registered registry)
    (createRepository compartment tok registry mem h).
Proof.
  intros Hnd.
  destruct (createRepository_shape tok registry mem h Hnd)
    as (lk & -> & Hout & Hin).
  assert (∀ k l, lk !! k = Some l →
            k ≠ "__proto__"
            ∧ ∃ i v, registry !! i = Some (k, v) ∧ l = length mem + i) as Hinv.
  { intros k l Hk.
    destruct (decide (k = "__proto__")) as [->|Hp].
    { rewrite Hout in Hk by (by right). done. }
    split; [done|].
    destruct (decide (k ∈ registry.*1)) as [Hel|Hn].
    - apply list_elem_of_fmap in Hel as ([k' v] & -> & Hel).
      apply list_elem_of_lookup in Hel as [i Hi]. exists i, v. split; [done|].
      simpl in Hk, Hp. rewrite (Hin _ _ _ Hi Hp) in Hk. by simplify_eq.
    - rewrite Hout in Hk by (by left). done. }
  unfold built. cbn [this lookupHeap heap].
  rewrite new_Repository_compartmentLookups.
  split; [done|]. split; [|split].
  - intros key l Hl. destruct (Hinv _ _ Hl) as (Hp & i & v & Hi & _).
    apply list_elem_of_fmap. exists (key, v). split; [done|].
    apply registered_entry. split; [done|]. by eapply list_elem_of_lookup_2.
  - intros key opts Hel. apply registered_entry in Hel as [Hp Hel].
    apply list_elem_of_lookup in Hel as [i Hi].
    exists (length mem + i), (new_Lookup (entityFactory compartment tok key opts)).
    split; [by eapply Hin|]. split; [|done].
    rewrite lookup_app_r by lia.
    replace (length mem + i - length mem) with i by lia.
    by rewrite list_lookup_fmap, Hi.
  - intros k1 k2 l H1 H2.
    destruct (Hinv _ _ H1) as (_ & i1 & v1 & Hi1 & ->).
    destruct (Hinv _ _ H2) as (_ & i2 & v2 & Hi2 & Heq).
    assert (i1 = i2) as -> by lia. by simplify_eq.
Qed.

Lemma createRepository_built tok (registry : list (string * Options))
    (mem : list ILookup) h :
  NoDup registry.*1 →
  "__proto__" ∉ registry.*1 →
  built compartment tok registry (createRepository compartment tok registry mem h).
Proof.
  intros Hnd Hp. rewrite <- (registered_all registry Hp) at 1.
  by apply createRepository_built_registered.
Qed.

Lemma built_run tok (registry : list (string * Options)) mem h (evs : list Event) :
  NoDup registry.*1 →
  "__proto__" ∉ registry.*1 →
  built compartment tok registry
    (run evs (createRepository compartment tok registry mem h)).
Proof.
  intros Hnd Hp. eapply built_extends; [by apply createRepository_built|].
  apply extends_run.
Qed.

(** ** Unregistered categories *)

Lemma not_inherited key (hash : gmap string nat) :
  key ∉ Object_prototype_names →
  hash !! "__proto__" = None →
  inherited key hash = false.
Proof.
  intros Hn Hp. unfold inherited. rewrite Hp.
  rewrite (bool_decide_eq_false_2 _ Hn).
  rewrite (bool_decide_eq_false_2 (is_Some None)); [done|].
  by intros [? ?].
Qed.

Lemma inherited_from_Object key (hash : gmap string nat) :
  key ∈ Object_prototype_names → inherited key hash = true.
Proof. intros Hin. unfold inherited. by rewrite (bool_decide_eq_true_2 _ Hin). Qed.

(** C3 (amended): on a category that was never registered and whose name
    is not one of those a plain object inherits from [Object.prototype],
    in a repository whose hash has no [Lookup] installed as prototype (as
    in every repository made by [createRepository]), [get], [clear] and
    [clearAll] throw the unknown-category error at call time; [modify],
    being an async method, returns a promise that is rejected with that
    error.  None of the four changes the state. *)
Theorem unknown_category_raised s key id modifier :
  compartmentLookups (this s) !! key = None →
  key ∉ Object_prototype_names →
  compartmentLookups (this s) !! "__proto__" = None →
  get key id s = (s, Throws (UnknownCategory key))
  ∧ clear key id s = (s, Throws (UnknownCategory key))
  ∧ clearAll key s = (s, Throws (UnknownCategory key))
  ∧ modify key id modifier s = (s, Returns (Rejected (UnknownCategory key))).
Proof.
  intros Hk Hn Hp.
  unfold modify, async, get, clear, clearAll, bind, findLookup, ret, throw.
  by rewrite Hk, (not_inherited _ _ Hn Hp).
Qed.

(** A name that is not registered but that every plain object inherits
    is not unknown to [findLookup]: the inherited value is returned, and
    the method call on it fails with the engine's error instead.  The
    state is unchanged all the same. *)
Lemma inherited_name_is_found s key id modifier :
  compartmentLookups (this s) !! key = None →
  key ∈ Object_prototype_names →
  findLookup key s = (s, Returns (Inherited key))
  ∧ get key id s = (s, Throws (notAFunction "find"))
  ∧ clear key id s = (s, Throws (notAFunction "clear"))
  ∧ clearAll key s = (s, Throws (notAFunction "clearAll"))
  ∧ modify key id modifier s = (s, Returns (Rejected (notAFunction "find"))).
Proof.
  intros Hk Hin.
  unfold modify, async, get, clear, clearAll, bind, findLookup, ret, throw.
  by rewrite Hk, (inherited_from_Object _ _ Hin).
Qed.

(** The call of [modify] always returns its promise. *)
Lemma modify_never_throws s key id modifier :
  ∃ p, (modify key id modifier s).2 = Returns p.
Proof.
  unfold modify, async. destruct (bind _ _ s) as [s1 [p|e]]; simpl; eauto.
Qed.

(** ** The categories never change *)

(** C7: whatever happens to a repository (calls of [get], [clear],
    [clearAll], [modify], [reset], loads that settle, suspended [modify]s
    that resume), the repository object and with it the category-to-lookup
    hash stay the same, so [findLookup] answers every key as it did
    before: an unknown category stays unknown, a registered one stays
    registered to the same [Lookup]. *)
Theorem categories_fixed (evs : list Event) s :
  this (run evs s) = this s
  ∧ compartmentLookups (this (run evs s)) = compartmentLookups (this s)
  ∧ ∀ key, (findLookup key (run evs s)).2 = (findLookup key s).2.
Proof.
  destruct (extends_run evs s) as [Hthis _].
  split; [done|]. split; [by rewrite Hthis|].
  intros key. unfold findLookup, ret, throw. rewrite Hthis.
  destruct (compartmentLookups (this s) !! key); [done|].
  by destruct (inherited key _).
Qed.

(** ** modify *)

Lemma set_heap_same s : set_heap (heap s) s = s.
Proof. by destruct s. Qed.

Lemma get_cached s key id lookup L c :
  compartmentLookups (this s) !! key = Some lookup →
  lookupHeap s !! lookup = Some L →
  values L !! id = Some c →
  get key id s = (s, Returns c).
Proof.
  intros Hk HL Hid. unfold get, bind, findLookup, ret, throw.
  rewrite Hk. cbn [call]. unfold Lookup_find. by rewrite HL, Hid.
Qed.

Lemma get_fresh s key id lookup L tok (opts : Options) :
  compartmentLookups (this s) !! key = Some lookup →
  lookupHeap s !! lookup = Some L →
  values L !! id = None →
  factory L = entityFactory compartment tok key opts →
  get key id s
  = (set_lookup lookup
       {| factory := factory L;
          values := <[id := length (cells (heap s))]> (values L) |}
       (set_heap (entityFactory compartment tok key opts id (heap s)).1 s),
     Returns (length (cells (heap s)))).
Proof.
  intros Hk HL Hid Hf. unfold get, bind, findLookup, ret, throw.
  rewrite Hk. cbn [call]. unfold Lookup_find.
  rewrite HL, Hid, Hf. by rewrite entityFactory_creates.
Qed.

(** C1: when the compartment of a registered category and id holds [V],
    [modify] returns a promise suspended on that compartment without
    touching the state; its continuation reads [V] and applies the
    modifier to it; once the modifier's promise has resolved to [V'] the
    continuation pushes [V'] onto the same compartment.  The compartment
    then holds [V'] and has emitted it as its latest value, every other
    compartment, every [Lookup] and the repository are as before, and the
    log of resolver calls has not grown. *)
Theorem modify_pushes_modified_value s key id modifier lookup L c cell V V' :
  compartmentLookups (this s) !! key = Some lookup →
  lookupHeap s !! lookup = Some L →
  values L !! id = Some c →
  cells (heap s) !! c = Some cell →
  value cell = Some V →
  modifier V = Resolves V' →
  modify key id modifier s = (s, Returns (AwaitingValue c modifier))
  ∧ resume (AwaitingValue c modifier) s = (s, AwaitingModifier c (modifier V))
  ∧ modify_alone key id modifier s
    = (set_heap (next c V' (heap s)) s, Fulfilled)
  ∧ cells (heap (modify_alone key id modifier s).1) !! c
    = Some {| dc_token := dc_token cell;
              dc_options := dc_options cell;
              value := Some V';
              stream := stream cell ++ [V'];
              inflight := inflight cell;
              failure := failure cell |}
  ∧ (∀ a, a ≠ c →
       cells (heap (modify_alone key id modifier s).1) !! a
       = cells (heap s) !! a)
  ∧ resolverCalls (heap (modify_alone key id modifier s).1)
    = resolverCalls (heap s)
  ∧ lookupHeap (modify_alone key id modifier s).1 = lookupHeap s
  ∧ this (modify_alone key id modifier s).1 = this s.
Proof.
  intros Hk HL Hid Hc HV Hm.
  assert (modify key id modifier s = (s, Returns (AwaitingValue c modifier)))
    as Hcall.
  { unfold modify, async, bind at 1. rewrite (get_cached _ _ _ _ _ _ Hk HL Hid).
    unfold read_subscribe. rewrite Hc, HV. by rewrite set_heap_same. }
  assert (resume (AwaitingValue c modifier) s
          = (s, AwaitingModifier c (modifier V))) as Hread.
  { simpl. by rewrite Hc, HV. }
  assert (modify_alone key id modifier s
          = (set_heap (next c V' (heap s)) s, Fulfilled)) as Hrun.
  { unfold modify_alone. rewrite Hcall. simpl. rewrite Hc, HV, Hm. done. }
  split; [done|]. split; [done|]. split; [done|].
  rewrite Hrun. simpl. unfold next. rewrite Hc. simpl.
  split; [|split; [|done]].
  - apply list_lookup_insert_eq. by eapply lookup_lt_Some.
  - intros a Ha. by apply list_lookup_insert_ne.
Qed.

(** C2: when the compartment of a registered category and id holds [V]
    and the modifier rejects on [V], [modify] ends rejected with the
    modifier's error and the state is exactly what it was before the call:
    nothing was pushed, the compartment still holds [V].  More generally,
    whatever the compartment and the state in which a modifier's rejection
    arrives, resuming on it changes nothing. *)
Theorem modify_rejected_leaves_compartment s key id modifier lookup L c cell V e :
  compartmentLookups (this s) !! key = Some lookup →
  lookupHeap s !! lookup = Some L →
  values L !! id = Some c →
  cells (heap s) !! c = Some cell →
  value cell = Some V →
  modifier V = Rejects e →
  modify_alone key id modifier s = (s, Rejected e)
  ∧ cells (heap (modify_alone key id modifier s).1) !! c = Some cell
  ∧ ∀ c' e' s1, resume (AwaitingModifier c' (Rejects e')) s1 = (s1, Rejected e').
Proof.
  intros Hk HL Hid Hc HV Hm.
  assert (modify_alone key id modifier s = (s, Rejected e)) as Hrun.
  { unfold modify_alone, modify, async, bind at 1.
    rewrite (get_cached _ _ _ _ _ _ Hk HL Hid).
    unfold read_subscribe. rewrite Hc, HV, set_heap_same.
    simpl. rewrite Hc, HV, Hm. done. }
  rewrite Hrun. done.
Qed.


Lemma lookup_snoc_length {A} (l : list A) (x : A) : (l ++ [x]) !! length l = Some x.
Proof. rewrite lookup_app_r by lia. by rewrite Nat.sub_diag. Qed.

Lemma insert_snoc_length {A} (l : list A) (x y : A) :
  <[length l := y]> (l ++ [x]) = l ++ [y].
Proof.
  rewrite <- (Nat.add_0_r (length l)) at 1. by rewrite insert_app_r.
Qed.

(** C9: for a registered category whose [Lookup] has no entry for the id,
    [modify] does not fail.  The call goes through [get], which creates
    the compartment and starts its one initial load, and returns a promise
    suspended on the new compartment.  While the load is in flight the
    continuation cannot go on; once the load has settled to [V0] it
    applies the modifier to [V0], and once that has resolved to [V'] it
    pushes [V'].  The compartment ends up holding [V'], having emitted
    [V0] then [V'], after exactly one resolver call. *)
Theorem modify_absent_entry_loads_first
    s key id modifier lookup L tok (opts : Options) V0 V' :
  compartmentLookups (this s) !! key = Some lookup →
  lookupHeap s !! lookup = Some L →
  values L !! id = None →
  factory L = entityFactory compartment tok key opts →
  resolve (resolver opts) id = Resolves V0 →
  modifier V0 = Resolves V' →
  let c := length (cells (heap s)) in
  let s1 := (get key id s).1 in
  let s2 := set_heap (settle c (heap s1)) s1 in
  let created v em fl :=
    {| dc_token := compartment tok key;
       dc_options :=
         {| loadingOptions := {| strategy := "auto" |};
            opt_retention := retention opts;
            defaultValue := None;
            source := {| load := fun _ =>
              ([(key, id)], resolve (resolver opts) id) |} |};
       value := v; stream := em; inflight := fl; failure := None |} in
  modify key id modifier s = (s1, Returns (AwaitingValue c modifier))
  ∧ cells (heap s1) = cells (heap s) ++ [created None [] (Some (Resolves V0))]
  ∧ resolverCalls (heap s1) = resolverCalls (heap s) ++ [(key, id)]
  ∧ resume (AwaitingValue c modifier) s1 = (s1, AwaitingValue c modifier)
  ∧ cells (heap s2) = cells (heap s) ++ [created (Some V0) [V0] None]
  ∧ resume (AwaitingValue c modifier) s2 = (s2, AwaitingModifier c (Resolves V'))
  ∧ modify_alone key id modifier s
    = (set_heap (next c V' (heap s2)) s2, Fulfilled)
  ∧ cells (heap (modify_alone key id modifier s).1)
    = cells (heap s) ++ [created (Some V') [V0; V'] None]
  ∧ resolverCalls (heap (modify_alone key id modifier s).1)
    = resolverCalls (heap s) ++ [(key, id)].
Proof.
  intros Hk HL Hid Hf Hres Hm c s1 s2 created.
  assert (get key id s = (s1, Returns c)) as Hget.
  { subst s1. by rewrite (get_fresh _ _ _ _ _ _ _ Hk HL Hid Hf). }
  assert (cells (heap s1) = cells (heap s) ++ [created None [] (Some (Resolves V0))]
          ∧ resolverCalls (heap s1) = resolverCalls (heap s) ++ [(key, id)])
    as [Hcells1 Hcalls1].
  { subst s1. rewrite (get_fresh _ _ _ _ _ _ _ Hk HL Hid Hf).
    rewrite entityFactory_creates. subst created. simpl. by rewrite Hres. }
  assert (cells (heap s1) !! c = Some (created None [] (Some (Resolves V0))))
    as Hc1.
  { rewrite Hcells1. apply lookup_snoc_length. }
  assert (modify key id modifier s = (s1, Returns (AwaitingValue c modifier)))
    as Hcall.
  { unfold modify, async, bind at 1. rewrite Hget.
    unfold read_subscribe, triggerLoad. rewrite Hc1. simpl.
    by rewrite set_heap_same. }
  assert (cells (heap s2) = cells (heap s) ++ [created (Some V0) [V0] None]
          ∧ resolverCalls (heap s2) = resolverCalls (heap s1)) as [Hcells2 Hcalls2].
  { subst s2. simpl. unfold settle. rewrite Hc1. simpl.
    rewrite Hcells1. unfold c. by rewrite insert_snoc_length. }
  assert (cells (heap s2) !! c = Some (created (Some V0) [V0] None)) as Hc2.
  { rewrite Hcells2. apply lookup_snoc_length. }
  assert (modify_alone key id modifier s
          = (set_heap (next c V' (heap s2)) s2, Fulfilled)) as Hrun.
  { assert (advance (AwaitingValue c modifier) s1
            = (s2, AwaitingValue c modifier)) as Ha1.
    { unfold advance. by rewrite Hc1. }
    assert (advance (AwaitingValue c modifier) s2
            = (s2, AwaitingModifier c (Resolves V'))) as Ha2.
    { unfold advance, resume. rewrite Hc2. unfold created. simpl. by rewrite Hm. }
    unfold modify_alone. rewrite Hcall.
    cbn [complete]. rewrite Ha1. cbn iota. rewrite Ha2. done. }
  split; [done|]. split; [done|]. split; [done|].
  split; [unfold resume; by rewrite Hc1|].
  split; [done|].
  split; [unfold resume; rewrite Hc2; unfold created; simpl; by rewrite Hm|].
  split; [done|].
  rewrite Hrun. cbn [fst heap set_heap]. unfold next. rewrite Hc2.
  unfold set_cell. cbn [cells resolverCalls].
  rewrite Hcells2. unfold c. rewrite insert_snoc_length. split; [done|].
  by rewrite Hcalls2.
Qed.

(** ** Single-flight creation *)

Lemma get_times_cached n s key id lookup L c :
  compartmentLookups (this s) !! key = Some lookup →
  lookupHeap s !! lookup = Some L →
  values L !! id = Some c →
  get_times n key id s = (s, replicate n (Returns c)).
Proof.
  intros Hk HL Hid. induction n as [|n IH]; simpl; [done|].
  by rewrite (get_cached _ _ _ _ _ _ Hk HL Hid), IH.
Qed.

(** C4: for a key never accessed, any number of calls of [get] made one
    after the other (the only way calls can race on one thread, each
    running to completion) create exactly one compartment and call the
    category's resolver exactly once: the first call creates it, and every
    call returns that same compartment. *)
Theorem first_access_is_single_flight
    s key id lookup L tok (opts : Options) n :
  compartmentLookups (this s) !! key = Some lookup →
  lookupHeap s !! lookup = Some L →
  values L !! id = None →
  factory L = entityFactory compartment tok key opts →
  (get_times (S n) key id s).2
  = replicate (S n) (Returns (length (cells (heap s))))
  ∧ length (cells (heap (get_times (S n) key id s).1))
    = S (length (cells (heap s)))
  ∧ resolverCalls (heap (get_times (S n) key id s).1)
    = resolverCalls (heap s) ++ [(key, id)]
  ∧ (get_times (S n) key id s).1 = (get key id s).1.
Proof.
  intros Hk HL Hid Hf.
  pose proof (get_fresh _ _ _ _ _ _ _ Hk HL Hid Hf) as Hget.
  set (c := length (cells (heap s))) in *.
  set (L1 := {| factory := factory L; values := <[id := c]> (values L) |}) in *.
  set (s1 := set_lookup lookup L1 _) in Hget.
  assert (get_times (S n) key id s = (s1, replicate (S n) (Returns c))) as Hall.
  { cbn [get_times]. rewrite Hget.
    rewrite (get_times_cached n s1 key id lookup L1 c); [done|done| |].
    - subst s1. simpl. apply list_lookup_insert_eq. by eapply lookup_lt_Some.
    - subst L1. simpl. apply lookup_insert_eq. }
  rewrite Hall, Hget. cbn [fst snd]. split; [done|].
  subst s1. cbn [heap set_lookup set_heap]. rewrite entityFactory_creates.
  cbn [fst cells resolverCalls]. rewrite length_app. simpl.
  split; [subst c; lia|done].
Qed.

(** ** reset *)

Lemma forEach_clearAll (entries : list (string * nat)) :
  ∀ s, (∀ k l, (k, l) ∈ entries → is_Some (lookupHeap s !! l)) →
    ∃ s', forEach entries (fun '(_, value) => Lookup_clearAll value) s
          = (s', Returns tt)
          ∧ this s' = this s ∧ heap s' = heap s
          ∧ ∀ l L, lookupHeap s !! l = Some L →
              lookupHeap s' !! l
              = Some (if bool_decide (l ∈ entries.*2)
                      then {| factory := factory L; values := ∅ |} else L).
Proof.
  induction entries as [|[k0 l0] es IH]; intros s Hvalid.
  - exists s. simpl. repeat split; try done.
  - destruct (Hvalid k0 l0) as [L0 HL0]; [left|].
    cbn [forEach]. unfold bind, Lookup_clearAll at 1. rewrite HL0.
    set (s1 := set_lookup l0 _ s).
    destruct (IH s1) as (s' & Hrun & Hthis & Hheap & Hlk).
    { intros k l Hel. destruct (Hvalid k l) as [L HL]; [by right|].
      subst s1. simpl. destruct (decide (l = l0)) as [->|Hne].
      - rewrite list_lookup_insert_eq by (by eapply lookup_lt_Some). eauto.
      - rewrite list_lookup_insert_ne by done. eauto. }
    exists s'. split; [done|]. split; [done|]. split; [done|].
    intros l L HL. destruct (decide (l = l0)) as [->|Hne].
    + rewrite HL0 in HL. injection HL as <-.
      rewrite (Hlk l0 {| factory := factory L0; values := ∅ |}).
      * assert (l0 ∈ ((k0, l0) :: es).*2) as Hhead by (simpl; left).
        rewrite (bool_decide_eq_true_2 _ Hhead).
        by destruct (bool_decide _).
      * subst s1. simpl. apply list_lookup_insert_eq. by eapply lookup_lt_Some.
    + rewrite (Hlk l L).
      * cbn [fmap list_fmap snd].
        rewrite (bool_decide_ext (l ∈ l0 :: es.*2) (l ∈ es.*2)); [done|].
        rewrite elem_of_cons. split; [by intros [?|?]|by right].
      * subst s1. simpl. by rewrite list_lookup_insert_ne.
Qed.

(** C5: on a repository made by [createRepository], [reset] returns
    normally and empties the [Lookup] of every registered category; the
    compartments already on the heap and the log of resolver calls are
    not touched by it.  A [get] for any id of a registered category after
    the reset, one loaded before included, therefore creates a new
    compartment and calls the resolver afresh. *)
Theorem reset_clears_every_category
    tok (registry : list (string * Options)) s key opts id :
  built compartment tok registry s →
  (key, opts) ∈ registry →
  (reset s).2 = Returns tt
  ∧ this (reset s).1 = this s
  ∧ heap (reset s).1 = heap s
  ∧ (∃ lookup L, compartmentLookups (this s) !! key = Some lookup
                 ∧ lookupHeap (reset s).1 !! lookup = Some L
                 ∧ values L = ∅
                 ∧ factory L = entityFactory compartment tok key opts)
  ∧ (get key id (reset s).1).2 = Returns (length (cells (heap s)))
  ∧ length (cells (heap (get key id (reset s).1).1))
    = S (length (cells (heap s)))
  ∧ resolverCalls (heap (get key id (reset s).1).1)
    = resolverCalls (heap s) ++ [(key, id)].
Proof.
  intros (Heq & Hdom & Hreg & Hinj) Hel.
  destruct (forEach_clearAll (map_to_list (lookups (this s))) s)
    as (s' & Hrun & Hthis & Hheap & Hlk).
  { intros k l Hkl. apply elem_of_map_to_list in Hkl. rewrite Heq in Hkl.
    pose proof (Hdom _ _ Hkl) as Hk.
    apply list_elem_of_fmap in Hk as ([k' o] & -> & Hk).
    destruct (Hreg _ _ Hk) as (l' & L & Hl' & HL & _).
    simpl in Hkl. rewrite Hkl in Hl'. simplify_eq. eauto. }
  assert (reset s = (s', Returns tt)) as Hreset by exact Hrun.
  rewrite Hreset. cbn [fst snd].
  destruct (Hreg _ _ Hel) as (lookup & L & Hk & HL & Hf).
  assert (lookupHeap s' !! lookup
          = Some {| factory := factory L; values := ∅ |}) as HL'.
  { rewrite (Hlk _ _ HL). rewrite bool_decide_eq_true_2; [done|].
    apply list_elem_of_fmap. exists (key, lookup). split; [done|].
    apply elem_of_map_to_list. by rewrite Heq. }
  assert (compartmentLookups (this s') !! key = Some lookup) as Hk'
    by (by rewrite Hthis).
  split; [done|]. split; [done|]. split; [done|].
  split; [by exists lookup, {| factory := factory L; values := ∅ |}|].
  rewrite (get_fresh s' key id lookup _ tok opts Hk' HL' (lookup_empty _) Hf).
  cbn [fst snd heap set_lookup set_heap]. rewrite entityFactory_creates.
  cbn [fst cells resolverCalls]. rewrite Hheap, length_app. simpl.
  split; [done|]. split; [lia|done].
Qed.

(** ** Categories do not interfere *)

(** On a repository made by [createRepository] two distinct categories
    never hold the same [Lookup]. *)
Lemma built_distinct_lookups
    tok (registry : list (string * Options)) s A B lookupA lookupB :
  built compartment tok registry s →
  A ≠ B →
  compartmentLookups (this s) !! A = Some lookupA →
  compartmentLookups (this s) !! B = Some lookupB →
  lookupA ≠ lookupB.
Proof.
  intros (_ & _ & _ & Hinj) Hne HA HB <-. apply Hne. by eapply Hinj.
Qed.

(** C10 (amended): for two registered categories [A] and [B] that hold
    different [Lookup] objects, [clear] and [clearAll] on [A] leave the
    [Lookup] of [B], its key-to-compartment map included, exactly as it
    was; neither touches a compartment. *)
Theorem clear_leaves_other_lookups s A B id lookupA lookupB :
  compartmentLookups (this s) !! A = Some lookupA →
  compartmentLookups (this s) !! B = Some lookupB →
  lookupA ≠ lookupB →
  lookupHeap (clear A id s).1 !! lookupB = lookupHeap s !! lookupB
  ∧ lookupHeap (clearAll A s).1 !! lookupB = lookupHeap s !! lookupB
  ∧ heap (clear A id s).1 = heap s
  ∧ heap (clearAll A s).1 = heap s.
Proof.
  intros HA HB Hl.
  unfold clear, clearAll, bind, findLookup, ret, throw.
  rewrite HA. cbn [call]. unfold Lookup_clear, Lookup_clearAll.
  destruct (lookupHeap s !! lookupA) as [LA|]; simpl; [|done].
  by rewrite !list_lookup_insert_ne.
Qed.

(** ** What createRepository builds *)

Lemma managedTokens_fmap tok (registry : list (string * Options)) :
  map (fun '(key, _) => compartment tok key) registry
  = compartment tok <$> registry.*1.
Proof.
  induction registry as [|[k v] r IH]; simpl; [done|]. by rewrite IH.
Qed.

(** C6: [createRepository token registry] keeps the repository token and
    manages one compartment token per registry key, [token.compartment]
    of that key, in the order of the entries.  For every entry of the
    registry it builds an empty [Lookup] whose factory, asked for an id,
    allocates one compartment carrying the category's compartment token,
    the load policy [auto], the entry's retention and a source that calls
    the entry's resolver on that id; the load is started at once, with
    that one resolver call.  The [Lookup] is registered under the entry's
    key, except for the key [__proto__], whose assignment adds no entry:
    the registered keys are the registry's keys other than [__proto__]. *)
Theorem createRepository_builds_lookups
    tok (registry : list (string * Options)) (mem : list ILookup) h
    i key opts id h0 :
  NoDup registry.*1 →
  registry !! i = Some (key, opts) →
  token (this (createRepository compartment tok registry mem h)) = tok
  ∧ managedTokens (this (createRepository compartment tok registry mem h))
    = compartment tok <$> registry.*1
  ∧ (∀ k, is_Some (compartmentLookups
                     (this (createRepository compartment tok registry mem h)) !! k)
          ↔ k ∈ registry.*1 ∧ k ≠ "__proto__")
  ∧ compartmentLookups
      (this (createRepository compartment tok registry mem h)) !! key
    = (if decide (key = "__proto__") then None else Some (length mem + i))
  ∧ ∃ L,
      lookupHeap (createRepository compartment tok registry mem h)
        !! (length mem + i) = Some L
      ∧ values L = ∅
      ∧ factory L id h0
        = new_DataCompartment (compartment tok key)
            {| loadingOptions := {| strategy := "auto" |};
               opt_retention := retention opts;
               defaultValue := None;
               source := {| load := fun _ =>
                 ([(key, id)], resolve (resolver opts) id) |} |} h0
      ∧ factory L id h0
        = ({| cells := cells h0 ++
                [ {| dc_token := compartment tok key;
                     dc_options :=
                       {| loadingOptions := {| strategy := "auto" |};
                          opt_retention := retention opts;
                          defaultValue := None;
                          source := {| load := fun _ =>
                            ([(key, id)], resolve (resolver opts) id) |} |};
                     value := None;
                     stream := [];
                     inflight := Some (resolve (resolver opts) id);
                     failure := None |} ];
              resolverCalls := resolverCalls h0 ++ [(key, id)] |},
           length (cells h0)).
Proof.
  intros Hnd Hi.
  destruct (createRepository_shape tok registry mem h Hnd)
    as (lk & -> & Hout & Hin).
  cbn [this lookupHeap]. rewrite new_Repository_compartmentLookups.
  cbn [token managedTokens new_Repository].
  split; [done|]. split; [apply managedTokens_fmap|]. split; [|split].
  - intros k. split.
    + intros [l Hl]. destruct (decide (k = "__proto__")) as [->|Hp].
      { rewrite Hout in Hl by (by right). done. }
      split; [|done].
      destruct (decide (k ∈ registry.*1)) as [|Hn]; [done|].
      rewrite Hout in Hl by (by left). done.
    + intros [Hk Hp]. apply list_elem_of_fmap in Hk as ([k' v] & -> & Hk).
      apply list_elem_of_lookup in Hk as [j Hj]. simpl in *.
      rewrite (Hin _ _ _ Hj Hp). eauto.
  - destruct (decide (key = "__proto__")) as [->|Hp].
    + apply Hout. by right.
    + by eapply Hin.
  - exists (new_Lookup (entityFactory compartment tok key opts)).
    split; [|split; [done|split; [done|]]].
    + rewrite lookup_app_r by lia.
      replace (length mem + i - length mem) with i by lia.
      by rewrite list_lookup_fmap, Hi.
    + cbn [factory new_Lookup]. apply entityFactory_creates.
Qed.

End Properties.

(** C8: [toString] was never registered at the sample repository, yet
    [get] does not throw the unknown-category error for it: [findLookup]
    returns the function every plain object inherits under that name, and
    the call of its [find] fails.  The state is unchanged. *)
Lemma get_inherited_name_is_not_unknown :
  compartmentLookups (this sampleState) !! "toString" = None
  ∧ get "toString" (inl "1") sampleState
    = (sampleState, Throws (notAFunction "find"))
  ∧ notAFunction "find" ≠ UnknownCategory "toString".
Proof.
  split; [vm_compute; reflexivity|]. split; [|discriminate].
  apply (inherited_name_is_found sampleState "toString" (inl "1") retitle);
    [vm_compute; reflexivity | apply (bool_decide_unpack _); vm_compute; exact I].
Qed.

(** C3 (amended) at the sample repository. *)
Lemma unknown_category_raised_witness :
  get "books" (inl "1") sampleState
  = (sampleState, Throws (UnknownCategory "books"))
  ∧ clear "books" (inl "1") sampleState
    = (sampleState, Throws (UnknownCategory "books"))
  ∧ clearAll "books" sampleState
    = (sampleState, Throws (UnknownCategory "books"))
  ∧ modify "books" (inl "1") retitle sampleState
    = (sampleState, Returns (Rejected (UnknownCategory "books"))).
Proof.
  apply (unknown_category_raised sampleState "books" (inl "1") retitle);
    [vm_compute; reflexivity
    | apply (bool_decide_unpack _); vm_compute; exact I
    | vm_compute; reflexivity].
Defined.

(** C3 as stated fails: [modify] on the unregistered category [books] does
    not throw; the call returns. *)
Lemma unknown_category_modify_not_thrown :
  compartmentLookups (this sampleState) !! "books" = None
  ∧ ¬ ((get "books" (inl "1") sampleState).2 = Throws (UnknownCategory "books")
       ∧ (clear "books" (inl "1") sampleState).2 = Throws (UnknownCategory "books")
       ∧ (clearAll "books" sampleState).2 = Throws (UnknownCategory "books")
       ∧ (modify "books" (inl "1") retitle sampleState).2
         = Throws (UnknownCategory "books")).
Proof.
  split; [vm_compute; reflexivity|].
  intros (_ & _ & _ & Hm). vm_compute in Hm. discriminate Hm.
Qed.

(** C1 at the sample repository, once video 1 is loaded. *)
Lemma modify_pushes_modified_value_witness :
  modify_alone "videos" (inl "1") retitle loadedState
  = (set_heap (next 0 {| video_id := "1"; title := "Updated" |}
                 (heap loadedState)) loadedState, Fulfilled)
  ∧ resolverCalls (heap (modify_alone "videos" (inl "1") retitle loadedState).1)
    = resolverCalls (heap loadedState).
Proof.
  destruct (modify_pushes_modified_value loadedState "videos" (inl "1")
              retitle 0
              {| factory := factory videosLookup;
                 values := {[ inl "1" := 0 ]} |}
              0 loadedVideo
              {| video_id := "1"; title := "T1" |}
              {| video_id := "1"; title := "Updated" |})
    as (_ & _ & Hrun & _ & _ & Hcalls & _);
    [vm_compute; reflexivity | vm_compute; reflexivity | vm_compute; reflexivity
    | vm_compute; reflexivity | reflexivity | reflexivity |].
  split; [exact Hrun | exact Hcalls].
Defined.

(** C2 at the sample repository, once video 1 is loaded. *)
Lemma modify_rejected_leaves_compartment_witness :
  modify_alone "videos" (inl "1") failingModifier loadedState
  = (loadedState, Rejected (MkError "modifier failed")).
Proof.
  destruct (modify_rejected_leaves_compartment loadedState "videos" (inl "1")
              failingModifier 0
              {| factory := factory videosLookup;
                 values := {[ inl "1" := 0 ]} |}
              0 loadedVideo
              {| video_id := "1"; title := "T1" |}
              (MkError "modifier failed"))
    as (Hrun & _);
    [vm_compute; reflexivity | vm_compute; reflexivity | vm_compute; reflexivity
    | vm_compute; reflexivity | reflexivity | reflexivity |].
  exact Hrun.
Defined.

(** C9 at the sample repository, before any video was requested. *)
Lemma modify_absent_entry_loads_first_witness :
  (modify_alone "videos" (inl "1") retitle sampleState).2 = Fulfilled
  ∧ resolverCalls (heap (modify_alone "videos" (inl "1") retitle sampleState).1)
    = [("videos", inl "1")].
Proof.
  destruct (modify_absent_entry_loads_first sampleCompartment sampleState
              "videos" (inl "1") retitle 0 videosLookup ["app"] videosOptions
              {| video_id := "1"; title := "T1" |}
              {| video_id := "1"; title := "Updated" |})
    as (_ & _ & _ & _ & _ & _ & Hrun & _ & Hcalls);
    [vm_compute; reflexivity | vm_compute; reflexivity | vm_compute; reflexivity
    | reflexivity | reflexivity | reflexivity |].
  split; [by rewrite Hrun | exact Hcalls].
Defined.

(** C4 at the sample repository: three calls in a row for video 1. *)
Lemma first_access_is_single_flight_witness :
  (get_times 3 "videos" (inl "1") sampleState).2
  = [Returns 0; Returns 0; Returns 0]
  ∧ resolverCalls (heap (get_times 3 "videos" (inl "1") sampleState).1)
    = [("videos", inl "1")].
Proof.
  destruct (first_access_is_single_flight sampleCompartment sampleState
              "videos" (inl "1") 0 videosLookup ["app"] videosOptions 2)
    as (Hres & _ & Hcalls & _);
    [vm_compute; reflexivity | vm_compute; reflexivity | vm_compute; reflexivity
    | reflexivity |].
  split; [exact Hres | exact Hcalls].
Defined.

Lemma sampleRegistry_NoDup : NoDup sampleRegistry.*1.
Proof. apply (bool_decide_unpack _). vm_compute. exact I. Qed.

Lemma sampleRegistry_registered : "__proto__" ∉ sampleRegistry.*1.
Proof. apply (bool_decide_unpack _). vm_compute. exact I. Qed.

(** C5 at the sample repository with video 1 loaded: after [reset] the
    next [get] for video 1 calls the resolver a second time. *)
Lemma reset_clears_every_category_witness :
  (reset loadedState).2 = Returns tt
  ∧ resolverCalls (heap (get "videos" (inl "1") (reset loadedState).1).1)
    = [("videos", inl "1"); ("videos", inl "1")].
Proof.
  destruct (reset_clears_every_category sampleCompartment ["app"] sampleRegistry
              loadedState "videos" videosOptions (inl "1"))
    as (Hret & _ & _ & _ & _ & _ & Hcalls).
  - apply built_run;
      [exact sampleRegistry_NoDup | exact sampleRegistry_registered].
  - left.
  - split; [exact Hret | exact Hcalls].
Defined.

(** C10 (amended) at the sample repository with video 1 loaded and draft
    7 requested: clearing [videos] leaves the [Lookup] of [drafts] alone. *)
Lemma clear_leaves_other_lookups_witness :
  lookupHeap (clearAll "videos"
                (run [CallGet "drafts" (inr 7%Z)] loadedState)).1 !! 1
  = lookupHeap (run [CallGet "drafts" (inr 7%Z)] loadedState) !! 1.
Proof.
  destruct (clear_leaves_other_lookups
              (run [CallGet "drafts" (inr 7%Z)] loadedState)
              "videos" "drafts" (inl "1") 0 1)
    as (_ & Hall & _);
    [vm_compute; reflexivity | vm_compute; reflexivity | discriminate |].
  exact Hall.
Defined.

(** C10 as stated fails: at the repository whose distinct registered keys
    [videos] and [films] hold one [Lookup], with video 1 requested through
    [films], [clearAll] on [videos] empties the key-to-compartment map
    that [films] reads. *)
Lemma clearAll_reaches_shared_category :
  "videos" ≠ "films"
  ∧ compartmentLookups (this sharedState) !! "videos" = Some 0
  ∧ compartmentLookups (this sharedState) !! "films" = Some 0
  ∧ values <$> lookupHeap (get "films" (inl "1") sharedState).1 !! 0
    = Some {[ inl "1" := 0 ]}
  ∧ values <$> lookupHeap
                 (clearAll "videos" (get "films" (inl "1") sharedState).1).1 !! 0
    = Some ∅
  ∧ ¬ (lookupHeap (clearAll "videos" (get "films" (inl "1") sharedState).1).1 !! 0
       = lookupHeap (get "films" (inl "1") sharedState).1 !! 0).
Proof.
  assert (values <$> lookupHeap (get "films" (inl "1") sharedState).1 !! 0
          = Some {[ inl "1" := 0 ]}) as Hbefore by (vm_compute; reflexivity).
  assert (values <$> lookupHeap
                       (clearAll "videos"
                          (get "films" (inl "1") sharedState).1).1 !! 0
          = Some ∅) as Hafter by (vm_compute; reflexivity).
  split; [discriminate|]. split; [vm_compute; reflexivity|].
  split; [vm_compute; reflexivity|]. split; [exact Hbefore|].
  split; [exact Hafter|].
  intros Heq. rewrite Heq, Hbefore in Hafter.
  apply (f_equal (fun o : option (gmap Key nat) =>
                    match o with Some m => m !! inl "1" | None => None end))
    in Hafter.
  vm_compute in Hafter. discriminate Hafter.
Qed.

(** C6 at the sample registry. *)
Lemma createRepository_builds_lookups_witness :
  managedTokens (this sampleState) = [["app"; "videos"]; ["app"; "drafts"]]
  ∧ token (this sampleState) = ["app"].
Proof.
  destruct (createRepository_builds_lookups sampleCompartment ["app"]
              sampleRegistry [] {| cells := []; resolverCalls := [] |}
              0 "videos" videosOptions (inl "1")
              {| cells := []; resolverCalls := [] |})
    as (Htok & Hmanaged & _).
  - exact sampleRegistry_NoDup.
  - reflexivity.
  - split; [exact Hmanaged | exact Htok].
Defined.

(** ** The documented scenarios, run on the sample repository *)

(** The first [get] for video 1 yields a compartment whose eventual value
    is the video titled [T1], after one resolver call. *)
Example scenario_first_get :
  (get "videos" (inl "1") sampleState).2 = Returns 0
  ∧ value <$> cells (heap loadedState) !! 0
    = Some (Some {| video_id := "1"; title := "T1" |})
  ∧ resolverCalls (heap loadedState) = [("videos", inl "1")].
Proof. vm_compute. done. Qed.

(** [clear] then [get] yields another compartment and a second resolver
    call. *)
Example scenario_clear_then_get :
  (get "videos" (inl "1")
     (run [CallClear "videos" (inl "1")] loadedState)).2 = Returns 1
  ∧ resolverCalls
      (heap (run [CallClear "videos" (inl "1"); CallGet "videos" (inl "1")]
               loadedState))
    = [("videos", inl "1"); ("videos", inl "1")].
Proof. vm_compute. done. Qed.

(** A video asked for by number is rejected by the sample resolver: the
    read of [modify] is rejected and nothing is pushed. *)
Example scenario_failed_load :
  (modify_alone "videos" (inr 7%Z) retitle sampleState).2
  = Rejected (MkError "no such video")
  ∧ stream <$> cells (heap (modify_alone "videos" (inr 7%Z) retitle
                                sampleState).1) !! 0
    = Some [].
Proof. vm_compute. done. Qed.

(** A registry entry [__proto__] gets its [Lookup] and its managed token,
    but [createRepository] registers nothing under that key: [get] for it
    finds the prototype of the hash, not a [Lookup].  The other entries
    are registered as usual. *)
Example scenario_proto_registry_entry :
  managedTokens (this protoState) = [["app"; "__proto__"]; ["app"; "videos"]]
  ∧ length (lookupHeap protoState) = 2
  ∧ compartmentLookups (this protoState) !! "__proto__" = None
  ∧ (get "__proto__" (inl "1") protoState).2 = Throws (notAFunction "find")
  ∧ (get "videos" (inl "1") protoState).2 = Returns 0.
Proof. vm_compute. done. Qed.

(** Given to the constructor, an own entry [__proto__] installs its
    [Lookup] as the prototype of the hash: the key itself reads back that
    [Lookup], and the method names of a [Lookup] become inherited names,
    which they are not in a repository without such an entry. *)
Example scenario_proto_lookups_entry :
  (findLookup "__proto__" protoLookupsState).2 = Returns (LookupRef 0)
  ∧ (get "__proto__" (inl "1") protoLookupsState).2 = Returns 0
  ∧ (findLookup "find" protoLookupsState).2 = Returns (Inherited "find")
  ∧ (get "find" (inl "1") protoLookupsState).2 = Throws (notAFunction "find")
  ∧ (findLookup "find" sharedState).2 = Throws (UnknownCategory "find").
Proof. vm_compute. done. Qed.

(** * Further properties of the repository *)

Section Compositions.

Context {Entity DataStoreToken RetentionOptions : Type}.
Variable compartment : DataStoreToken -> string -> DataStoreToken.

Local Abbreviation State := (@State Entity DataStoreToken RetentionOptions).
Local Abbreviation Heap := (@Heap Entity DataStoreToken RetentionOptions).
Local Abbreviation ILookup := (@ILookup Entity DataStoreToken RetentionOptions).
Local Abbreviation Options := (@RepositoryCompartmentOptions Entity RetentionOptions).
Local Abbreviation Event := (@Event Entity).

Implicit Types (s : State) (h : Heap) (L : ILookup) (key : string) (id : Key).

(** ** The constructor *)

(** X1: a repository made by the constructor answers [findLookup] from
    the [lookups] object it was given.  When that object has no entry
    [__proto__], a key of the object is answered with the [Lookup] stored
    under it; any other key is answered with an inherited value when it
    is a name of [Object.prototype], and throws the unknown-category error
    otherwise.  The object itself is kept, with the same entries, for
    [reset]. *)
Theorem constructor_registers_given_lookups
    (tok : DataStoreToken) managed (lks : gmap string nat)
    (mem : list ILookup) h key :
  lks !! "__proto__" = None →
  (findLookup key {| this := new_Repository tok managed lks;
                     lookupHeap := mem; heap := h |}).2
  = match lks !! key with
    | Some lookup => Returns (LookupRef lookup)
    | None => if bool_decide (key ∈ Object_prototype_names)
              then Returns (Inherited key)
              else Throws (UnknownCategory key)
    end
  ∧ lookups (new_Repository tok managed lks) = lks
  ∧ compartmentLookups (new_Repository tok managed lks)
    = lookups (new_Repository tok managed lks).
Proof.
  intros Hp.
  split; [|split; [done|by rewrite new_Repository_compartmentLookups]].
  unfold findLookup, ret, throw. cbn [this].
  rewrite new_Repository_compartmentLookups.
  destruct (lks !! key); [done|].
  destruct (decide (key ∈ Object_prototype_names)) as [Hin|Hn].
  - by rewrite (inherited_from_Object _ _ Hin), (bool_decide_eq_true_2 _ Hin).
  - by rewrite (not_inherited _ _ Hn Hp), (bool_decide_eq_false_2 _ Hn).
Qed.

(** ** createRepository *)

Lemma createRepository_fold_mem tok (entries : list (string * Options)) :
  ∀ (lk : gmap string nat) (mem : list ILookup) lk' mem',
    foldl (fun '(lookups, mem) '(key, value) =>
             (if decide (key = "__proto__") then lookups
              else <[key := length mem]> lookups,
              mem ++ [new_Lookup (entityFactory compartment tok key value)]))
          (lk, mem) entries = (lk', mem') →
    mem' = mem ++ ((fun e => new_Lookup (entityFactory compartment tok e.1 e.2))
                     <$> entries).
Proof.
  induction entries as [|[k0 v0] es IH]; intros lk mem lk' mem' Hfold;
    simpl in Hfold.
  - simplify_eq. by rewrite app_nil_r.
  - rewrite (IH _ _ _ _ Hfold). by rewrite <- app_assoc.
Qed.

(** X2: [createRepository] is lazy.  Whatever the registry, it creates no
    compartment and calls no resolver; it leaves the [Lookup]s already
    allocated in place and allocates one new, empty [Lookup] per registry
    entry, in the order of the entries; it manages as many tokens as the
    registry has entries. *)
Theorem createRepository_allocates_lazily
    tok (registry : list (string * Options)) (mem : list ILookup) h :
  heap (createRepository compartment tok registry mem h) = h
  ∧ lookupHeap (createRepository compartment tok registry mem h)
    = mem ++ ((fun e => new_Lookup (entityFactory compartment tok e.1 e.2))
                <$> registry)
  ∧ (∀ l L, length mem ≤ l →
       lookupHeap (createRepository compartment tok registry mem h) !! l
       = Some L → values L = ∅)
  ∧ length (managedTokens (this (createRepository compartment tok registry mem h)))
    = length registry.
Proof.
  unfold createRepository.
  destruct (foldl _ (∅, mem) registry) as [lk' mem'] eqn:Hfold.
  rewrite (createRepository_fold_mem tok registry ∅ mem _ _ Hfold).
  cbn [heap lookupHeap this].
  split; [done|]. split; [done|]. split.
  - intros l L Hl HL. rewrite lookup_app_r in HL by done.
    rewrite list_lookup_fmap in HL.
    destruct (registry !! (l - length mem)) as [e|]; simpl in HL; [|done].
    by simplify_eq.
  - cbn [managedTokens new_Repository]. by rewrite length_map.
Qed.

(** ** Eviction followed by access *)

Lemma clear_registered s key id lookup L :
  compartmentLookups (this s) !! key = Some lookup →
  lookupHeap s !! lookup = Some L →
  clear key id s
  = (set_lookup lookup {| factory := factory L;
                          values := delete id (values L) |} s, Returns tt).
Proof.
  intros Hk HL. unfold clear, bind, findLookup, ret, throw.
  rewrite Hk. cbn [call]. unfold Lookup_clear. by rewrite HL.
Qed.

Lemma clearAll_registered s key lookup L :
  compartmentLookups (this s) !! key = Some lookup →
  lookupHeap s !! lookup = Some L →
  clearAll key s
  = (set_lookup lookup {| factory := factory L; values := ∅ |} s, Returns tt).
Proof.
  intros Hk HL. unfold clearAll, bind, findLookup, ret, throw.
  rewrite Hk. cbn [call]. unfold Lookup_clearAll. by rewrite HL.
Qed.

Lemma lookupHeap_set_lookup s lookup L L1 :
  lookupHeap s !! lookup = Some L →
  lookupHeap (set_lookup lookup L1 s) !! lookup = Some L1.
Proof.
  intros HL. simpl. apply list_lookup_insert_eq. by eapply lookup_lt_Some.
Qed.

(** X3: eviction is a cache miss for the next access.  On a category of
    [createRepository], [clear] returns normally, and the next [get] for
    the cleared id allocates a new compartment behind every compartment
    that exists (the evicted one stays where it was, untouched), with its
    load started by one new resolver call; the same holds for every id
    after [clearAll]. *)
Theorem clear_then_get_reloads s key id lookup L tok (opts : Options) :
  compartmentLookups (this s) !! key = Some lookup →
  lookupHeap s !! lookup = Some L →
  factory L = entityFactory compartment tok key opts →
  (clear key id s).2 = Returns tt
  ∧ (clearAll key s).2 = Returns tt
  ∧ (get key id (clear key id s).1).2 = Returns (length (cells (heap s)))
  ∧ (get key id (clearAll key s).1).2 = Returns (length (cells (heap s)))
  ∧ (∃ cell, cells (heap (get key id (clear key id s).1).1)
             = cells (heap s) ++ [cell]
             ∧ value cell = None
             ∧ inflight cell = Some (resolve (resolver opts) id))
  ∧ (∃ cell, cells (heap (get key id (clearAll key s).1).1)
             = cells (heap s) ++ [cell]
             ∧ value cell = None
             ∧ inflight cell = Some (resolve (resolver opts) id))
  ∧ resolverCalls (heap (get key id (clear key id s).1).1)
    = resolverCalls (heap s) ++ [(key, id)]
  ∧ resolverCalls (heap (get key id (clearAll key s).1).1)
    = resolverCalls (heap s) ++ [(key, id)].
Proof.
  intros Hk HL Hf.
  rewrite (clear_registered _ _ _ _ _ Hk HL).
  rewrite (clearAll_registered _ _ _ _ Hk HL). cbn [fst snd].
  set (L1 := {| factory := factory L; values := delete id (values L) |}).
  set (L2 := {| factory := factory L; values := ∅ |}).
  rewrite (get_fresh compartment (set_lookup lookup L1 s) key id lookup L1 tok opts
             Hk (lookupHeap_set_lookup _ _ _ _ HL) (lookup_delete_eq _ _) Hf).
  rewrite (get_fresh compartment (set_lookup lookup L2 s) key id lookup L2 tok opts
             Hk (lookupHeap_set_lookup _ _ _ _ HL) (lookup_empty _) Hf).
  cbn [fst snd heap set_lookup set_heap]. rewrite entityFactory_creates.
  cbn [fst cells resolverCalls].
  split; [done|]. split; [done|]. split; [done|]. split; [done|].
  split; [eexists; split; [reflexivity|done]|].
  split; [eexists; split; [reflexivity|done]|]. done.
Qed.

(** X4: [clear] evicts one id only.  Another id of the same category that
    is cached stays cached: the next [get] for it returns the compartment
    it had and changes nothing. *)
Theorem clear_keeps_other_ids s key id id' lookup L c :
  compartmentLookups (this s) !! key = Some lookup →
  lookupHeap s !! lookup = Some L →
  id ≠ id' →
  values L !! id' = Some c →
  get key id' (clear key id s).1 = ((clear key id s).1, Returns c).
Proof.
  intros Hk HL Hne Hc.
  rewrite (clear_registered _ _ _ _ _ Hk HL). cbn [fst].
  eapply get_cached; [exact Hk|by eapply lookupHeap_set_lookup|].
  simpl. by rewrite lookup_delete_ne.
Qed.

Lemma set_lookup_same s lookup L :
  lookupHeap s !! lookup = Some L →
  set_lookup lookup {| factory := factory L; values := values L |} s = s.
Proof.
  intros HL. destruct L as [f v]. unfold set_lookup. simpl.
  rewrite list_insert_id by done. by destruct s.
Qed.

(** X5: [clear] for an id that has no compartment is not an error and
    changes nothing at all. *)
Theorem clear_absent_id_changes_nothing s key id lookup L :
  compartmentLookups (this s) !! key = Some lookup →
  lookupHeap s !! lookup = Some L →
  values L !! id = None →
  clear key id s = (s, Returns tt).
Proof.
  intros Hk HL Hid. rewrite (clear_registered _ _ _ _ _ Hk HL).
  rewrite (delete_id _ _ Hid). by rewrite (set_lookup_same _ _ _ HL).
Qed.

(** X6: eviction never reaches a compartment.  In any state, [clear],
    [clearAll] and [reset] leave the repository object, every compartment
    and the log of resolver calls as they are: no load is cancelled or
    restarted, and a holder of an evicted compartment still has it. *)
Theorem eviction_leaves_compartments s key id :
  heap (clear key id s).1 = heap s
  ∧ heap (clearAll key s).1 = heap s
  ∧ heap (reset s).1 = heap s
  ∧ this (reset s).1 = this s.
Proof.
  assert (∀ l s0, heap (Lookup_clearAll l s0).1 = heap s0
                  ∧ this (Lookup_clearAll l s0).1 = this s0) as Hone.
  { intros l s0. unfold Lookup_clearAll. by destruct (lookupHeap s0 !! l). }
  split; [|split; [|]].
  - unfold clear, bind, findLookup, ret, throw.
    destruct (compartmentLookups (this s) !! key) as [l|];
      [|by destruct (inherited key _)].
    cbn [call]. unfold Lookup_clear. by destruct (lookupHeap s !! l).
  - unfold clearAll, bind, findLookup, ret, throw.
    destruct (compartmentLookups (this s) !! key) as [l|];
      [|by destruct (inherited key _)].
    apply Hone.
  - unfold reset. generalize (map_to_list (lookups (this s))).
    intros entries. revert s.
    induction entries as [|[k l] es IH]; intros s; [done|].
    cbn [forEach]. unfold bind. destruct (Hone l s) as [Hh Ht].
    destruct (Lookup_clearAll l s) as [s1 [[]|e]]; simpl in *.
    + destruct (IH s1) as [Hh1 Ht1]. split; congruence.
    + done.
Qed.

(** ** Idempotence *)

Lemma forEach_clearAll_length (entries : list (string * nat)) s :
  length (lookupHeap
            (forEach entries (fun '(_, value) => Lookup_clearAll value) s).1)
  = length (lookupHeap s).
Proof.
  revert s. induction entries as [|[k l] es IH]; intros s; [done|].
  cbn [forEach]. unfold bind, Lookup_clearAll at 1.
  destruct (lookupHeap s !! l) as [L|]; [|done].
  rewrite IH. simpl. apply length_insert.
Qed.

Lemma built_lookups_valid tok (registry : list (string * Options)) s :
  built compartment tok registry s →
  ∀ k l, (k, l) ∈ map_to_list (lookups (this s)) →
         is_Some (lookupHeap s !! l).
Proof.
  intros (Heq & Hdom & Hreg & Hinj) k l Hkl.
  apply elem_of_map_to_list in Hkl. rewrite Heq in Hkl.
  pose proof (Hdom _ _ Hkl) as Hk.
  apply list_elem_of_fmap in Hk as ([k' o] & -> & Hk).
  destruct (Hreg _ _ Hk) as (l' & L & Hl' & HL & _).
  simpl in Hkl. rewrite Hkl in Hl'. simplify_eq. eauto.
Qed.

(** X7: [reset] and [clearAll] are idempotent.  On a repository of
    [createRepository], a second [reset] right after the first returns
    normally and changes nothing, and so does a second [clearAll] of a
    registered category. *)
Theorem reset_twice_is_reset
    tok (registry : list (string * Options)) s key lookup :
  built compartment tok registry s →
  compartmentLookups (this s) !! key = Some lookup →
  reset (reset s).1 = ((reset s).1, Returns tt)
  ∧ clearAll key (clearAll key s).1 = ((clearAll key s).1, Returns tt).
Proof.
  intros Hb Hk. split.
  - pose proof (built_lookups_valid _ _ _ Hb) as Hvalid.
    destruct (forEach_clearAll _ s Hvalid) as (s1 & Hrun & Hthis & Hheap & Hlk).
    assert (reset s = (s1, Returns tt)) as -> by exact Hrun. cbn [fst].
    pose proof (forEach_clearAll_length (map_to_list (lookups (this s))) s)
      as Hlen1.
    rewrite Hrun in Hlen1. cbn [fst] in Hlen1.
    destruct (forEach_clearAll (map_to_list (lookups (this s))) s1)
      as (s2 & Hrun2 & Hthis2 & Hheap2 & Hlk2).
    { intros k l Hkl. destruct (Hvalid _ _ Hkl) as [L HL].
      rewrite (Hlk _ _ HL). eauto. }
    pose proof (forEach_clearAll_length (map_to_list (lookups (this s))) s1)
      as Hlen2.
    rewrite Hrun2 in Hlen2. cbn [fst] in Hlen2.
    unfold reset. rewrite Hthis, Hrun2. f_equal.
    assert (lookupHeap s2 = lookupHeap s1) as Hsame.
    { apply list_eq. intros i.
      destruct (lookupHeap s !! i) as [L|] eqn:HL.
      - pose proof (Hlk _ _ HL) as H1. rewrite (Hlk2 _ _ H1), H1.
        by destruct (bool_decide _).
      - apply lookup_ge_None in HL.
        rewrite (proj2 (lookup_ge_None (lookupHeap s2) i)) by lia.
        by rewrite (proj2 (lookup_ge_None (lookupHeap s1) i)) by lia. }
    destruct s2, s1; simpl in *. congruence.
  - destruct Hb as (_ & Hdom & Hreg & _).
    pose proof (Hdom _ _ Hk) as Hel.
    apply list_elem_of_fmap in Hel as ([k' o] & -> & Hel).
    destruct (Hreg _ _ Hel) as (l' & L & Hl' & HL & _).
    cbn [fst] in *. rewrite Hk in Hl'. simplify_eq.
    rewrite (clearAll_registered _ _ _ _ Hk HL). cbn [fst].
    rewrite (clearAll_registered
               (set_lookup l' {| factory := factory L; values := ∅ |} s)
               k' l' _ Hk (lookupHeap_set_lookup _ _ _ _ HL)).
    f_equal. unfold set_lookup. simpl. by rewrite list_insert_insert_eq.
Qed.

(** ** modify under interleaving *)

Lemma modify_cached_call s key id modifier lookup L c cell V :
  compartmentLookups (this s) !! key = Some lookup →
  lookupHeap s !! lookup = Some L →
  values L !! id = Some c →
  cells (heap s) !! c = Some cell →
  value cell = Some V →
  modify key id modifier s = (s, Returns (AwaitingValue c modifier))
  ∧ resume (AwaitingValue c modifier) s = (s, AwaitingModifier c (modifier V)).
Proof.
  intros Hk HL Hid Hc HV. split.
  - unfold modify, async, bind at 1. rewrite (get_cached _ _ _ _ _ _ Hk HL Hid).
    unfold read_subscribe. rewrite Hc, HV. by rewrite set_heap_same.
  - simpl. by rewrite Hc, HV.
Qed.

(** X8: [modify] has no concurrency control and the last push wins.  When
    two [modify] calls on a compartment holding [V] have both read before
    either pushes, each modifier is applied to [V]; the calls and the
    reads change nothing; after both pushes the compartment holds what the
    second modifier made of [V], not of the first one's result, and has
    emitted both results in push order. *)
Theorem racing_modify_last_push_wins
    s key id m1 m2 lookup L c cell V V1 V2 :
  compartmentLookups (this s) !! key = Some lookup →
  lookupHeap s !! lookup = Some L →
  values L !! id = Some c →
  cells (heap s) !! c = Some cell →
  value cell = Some V →
  m1 V = Resolves V1 →
  m2 V = Resolves V2 →
  run [CallModify key id m1; CallModify key id m2;
       ModifyResumes (AwaitingValue c m1);
       ModifyResumes (AwaitingValue c m2)] s = s
  ∧ resume (AwaitingValue c m1) s = (s, AwaitingModifier c (Resolves V1))
  ∧ resume (AwaitingValue c m2) s = (s, AwaitingModifier c (Resolves V2))
  ∧ cells (heap (run [ModifyResumes (AwaitingModifier c (Resolves V1));
                      ModifyResumes (AwaitingModifier c (Resolves V2))] s)) !! c
    = Some {| dc_token := dc_token cell;
              dc_options := dc_options cell;
              value := Some V2;
              stream := stream cell ++ [V1; V2];
              inflight := inflight cell;
              failure := failure cell |}.
Proof.
  intros Hk HL Hid Hc HV H1 H2.
  destruct (modify_cached_call s key id m1 _ _ _ _ _ Hk HL Hid Hc HV)
    as [Hcall1 Hread1].
  destruct (modify_cached_call s key id m2 _ _ _ _ _ Hk HL Hid Hc HV)
    as [Hcall2 Hread2].
  rewrite H1 in Hread1. rewrite H2 in Hread2.
  split; [|split; [done|split; [done|]]].
  - unfold run. cbn [foldl step].
    rewrite Hcall1. cbn [fst]. rewrite Hcall2. cbn [fst].
    rewrite Hread1. cbn [fst]. by rewrite Hread2.
  - unfold run. cbn [foldl step resume fst heap set_heap].
    assert (c < length (cells (heap s))) as Hlt by (by eapply lookup_lt_Some).
    unfold next at 2. rewrite Hc. unfold set_cell. cbn [cells resolverCalls].
    unfold next. cbn [cells]. rewrite list_lookup_insert_eq by done.
    unfold set_cell. cbn [cells dc_token dc_options value stream inflight failure].
    rewrite list_insert_insert_eq.
    rewrite list_lookup_insert_eq by done.
    by rewrite <- app_assoc.
Qed.

(** X9: after its call a [modify] only ever writes to the compartment it
    got from [get].  Resuming at the read changes nothing; resuming with a
    resolved modifier leaves the repository object, every [Lookup], the
    log of resolver calls and every other compartment as they are;
    resuming with a rejected modifier, or a settled promise, changes
    nothing. *)
Theorem resume_writes_one_compartment p s :
  this (resume p s).1 = this s
  ∧ lookupHeap (resume p s).1 = lookupHeap s
  ∧ resolverCalls (heap (resume p s).1) = resolverCalls (heap s)
  ∧ length (cells (heap (resume p s).1)) = length (cells (heap s))
  ∧ match p with
    | AwaitingModifier c (Resolves _) =>
        ∀ a, a ≠ c →
             cells (heap (resume p s).1) !! a = cells (heap s) !! a
    | _ => (resume p s).1 = s
    end.
Proof.
  destruct p as [c modifier|c [v|e]| |e]; cbn [resume fst].
  - assert ((match cells (heap s) !! c with
             | Some cell =>
                 match value cell, inflight cell, failure cell with
                 | Some currentValue, _, _ =>
                     (s, AwaitingModifier c (modifier currentValue))
                 | None, None, Some e => (s, Rejected e)
                 | None, _, _ => (s, AwaitingValue c modifier)
                 end
             | None => (s, AwaitingValue c modifier)
             end).1 = s) as ->; [|done].
    repeat case_match; done.
  - cbn [this lookupHeap heap set_heap]. unfold next.
    destruct (cells (heap s) !! c) as [cell|]; [|done].
    unfold set_cell. cbn [cells resolverCalls]. rewrite length_insert.
    repeat split; try done. intros a Ha. by apply list_lookup_insert_ne.
  - done.
  - done.
  - done.
Qed.

(** X10: a second [modify] joins the load of the first.  On a category of
    [createRepository] with no compartment for the id, the first call
    creates it with one resolver call; a second call made before the load
    settles changes nothing and is suspended on the same compartment. *)
Theorem second_modify_joins_the_load
    s key id m1 m2 lookup L tok (opts : Options) :
  compartmentLookups (this s) !! key = Some lookup →
  lookupHeap s !! lookup = Some L →
  values L !! id = None →
  factory L = entityFactory compartment tok key opts →
  (modify key id m1 s).2
  = Returns (AwaitingValue (length (cells (heap s))) m1)
  ∧ modify key id m2 (modify key id m1 s).1
    = ((modify key id m1 s).1,
       Returns (AwaitingValue (length (cells (heap s))) m2))
  ∧ resolverCalls (heap (modify key id m1 s).1)
    = resolverCalls (heap s) ++ [(key, id)]
  ∧ length (cells (heap (modify key id m1 s).1))
    = S (length (cells (heap s))).
Proof.
  intros Hk HL Hid Hf.
  pose proof (get_fresh compartment _ _ _ _ _ _ _ Hk HL Hid Hf) as Hget.
  rewrite entityFactory_creates in Hget. cbn [fst] in Hget.
  set (c := length (cells (heap s))) in *.
  set (L1 := {| factory := factory L; values := <[id := c]> (values L) |}) in *.
  set (s1 := set_lookup lookup L1 _) in Hget.
  assert (∃ cell, cells (heap s1) !! c = Some cell ∧ value cell = None
                  ∧ is_Some (inflight cell)) as (cell & Hc & Hv & [pr Hfl]).
  { eexists. subst s1. cbn [heap set_lookup set_heap cells].
    split; [apply lookup_snoc_length|]. split; [done|]. by eexists. }
  assert (set_heap (read_subscribe c (heap s1)) s1 = s1) as Hsub.
  { unfold read_subscribe, triggerLoad.
    rewrite Hc, Hv, Hfl. apply set_heap_same. }
  assert (modify key id m1 s = (s1, Returns (AwaitingValue c m1))) as Hcall1.
  { unfold modify, async, bind at 1. rewrite Hget. by rewrite Hsub. }
  rewrite Hcall1. cbn [fst snd]. split; [done|]. split.
  - unfold modify, async, bind at 1.
    rewrite (get_cached s1 key id lookup L1 c); [by rewrite Hsub|done| |].
    + subst s1. by eapply lookupHeap_set_lookup.
    + subst L1. simpl. apply lookup_insert_eq.
  - subst s1. cbn [heap set_lookup set_heap cells resolverCalls].
    rewrite length_app. simpl. split; [done|]. subst c. lia.
Qed.

(** ** One Lookup under two keys *)

(** X11: the constructor stores the [Lookup]s it is given by reference.
    When two keys hold the same [Lookup], they are two names of one
    cache: a [get] through the second key returns the compartment the
    first key's [get] returned and changes nothing more, and [clearAll]
    through one key empties the map read through the other. *)
Theorem shared_lookup_is_one_cache s A B id lookup L :
  compartmentLookups (this s) !! A = Some lookup →
  compartmentLookups (this s) !! B = Some lookup →
  lookupHeap s !! lookup = Some L →
  get B id (get A id s).1 = ((get A id s).1, (get A id s).2)
  ∧ (findLookup B (clearAll A s).1).2 = Returns (LookupRef lookup)
  ∧ lookupHeap (clearAll A s).1 !! lookup
    = Some {| factory := factory L; values := ∅ |}.
Proof.
  intros HA HB HL. split; [|split].
  - destruct (values L !! id) as [c|] eqn:Hid.
    + rewrite (get_cached _ _ _ _ _ _ HA HL Hid). cbn [fst snd].
      by eapply get_cached.
    + assert (get A id s
              = (set_lookup lookup
                   {| factory := factory L;
                      values := <[id := (factory L id (heap s)).2]> (values L) |}
                   (set_heap (factory L id (heap s)).1 s),
                 Returns (factory L id (heap s)).2)) as ->.
      { unfold get, bind, findLookup, ret, throw.
        rewrite HA. cbn [call]. unfold Lookup_find.
        rewrite HL, Hid. by destruct (factory L id (heap s)). }
      cbn [fst snd]. eapply get_cached; [exact HB| |].
      * apply (lookupHeap_set_lookup (set_heap _ s) _ L). exact HL.
      * simpl. apply lookup_insert_eq.
  - rewrite (clearAll_registered _ _ _ _ HA HL).
    unfold findLookup, ret, throw. cbn [fst this set_lookup]. by rewrite HB.
  - rewrite (clearAll_registered _ _ _ _ HA HL). cbn [fst].
    by eapply lookupHeap_set_lookup.
Qed.

(** ** From createRepository to the first compartment *)

(** X12: the documented use, [createRepository] then [get].  On a
    repository just made from a registry, the first [get] for an id of a
    category of the registry, under any key but [__proto__] (which
    [createRepository] does not register), returns a new compartment
    placed behind the ones
    the heap already had; it carries the category's compartment token and
    retention, has no value yet, and its load is the category's resolver
    called once on that id. *)
Theorem first_get_on_new_repository
    tok (registry : list (string * Options)) (mem : list ILookup) h
    key opts id :
  NoDup registry.*1 →
  (key, opts) ∈ registry →
  key ≠ "__proto__" →
  (get key id (createRepository compartment tok registry mem h)).2
  = Returns (length (cells h))
  ∧ (∃ cell,
       cells (heap (get key id
                      (createRepository compartment tok registry mem h)).1)
       = cells h ++ [cell]
       ∧ dc_token cell = compartment tok key
       ∧ opt_retention (dc_options cell) = retention opts
       ∧ value cell = None
       ∧ inflight cell = Some (resolve (resolver opts) id))
  ∧ resolverCalls (heap (get key id
                           (createRepository compartment tok registry mem h)).1)
    = resolverCalls h ++ [(key, id)].
Proof.
  intros Hnd Hel Hp.
  destruct (createRepository_shape compartment tok registry mem h Hnd)
    as (lk & -> & Hout & Hin).
  apply list_elem_of_lookup in Hel as [i Hi].
  set (s := {| this := _; lookupHeap := _; heap := h |}).
  assert (compartmentLookups (this s) !! key = Some (length mem + i)) as Hk.
  { subst s. cbn [this]. rewrite new_Repository_compartmentLookups.
    by eapply Hin. }
  assert (lookupHeap s !! (length mem + i)
          = Some (new_Lookup (entityFactory compartment tok key opts))) as HL.
  { subst s. cbn [lookupHeap]. rewrite lookup_app_r by lia.
    replace (length mem + i - length mem) with i by lia.
    by rewrite list_lookup_fmap, Hi. }
  rewrite (get_fresh compartment s key id _ _ tok opts Hk HL (lookup_empty _)
             eq_refl).
  cbn [fst snd heap set_lookup set_heap]. rewrite entityFactory_creates.
  subst s. cbn [fst cells resolverCalls heap].
  split; [done|]. split; [|done].
  eexists. split; [reflexivity|done].
Qed.

(** ** The resolver adapter *)

(** X13: a function wrapped by [ConfiguredEntityResolver] decides what the
    compartment becomes.  On a category of [createRepository] whose
    resolver wraps [f], the first [get] for an id calls the resolver once,
    and when that load settles the compartment holds and has emitted
    exactly what [f id] resolved to, or, if [f id] rejected, has no value,
    has emitted nothing and records the error. *)
Theorem wrapped_resolver_fills_compartment
    s key id lookup L tok (opts : Options) f :
  compartmentLookups (this s) !! key = Some lookup →
  lookupHeap s !! lookup = Some L →
  values L !! id = None →
  factory L = entityFactory compartment tok key opts →
  resolver opts = ConfiguredEntityResolver f →
  resolverCalls (heap (run [CallGet key id;
                            LoadSettles (length (cells (heap s)))] s))
  = resolverCalls (heap s) ++ [(key, id)]
  ∧ ∃ cell,
      cells (heap (run [CallGet key id;
                        LoadSettles (length (cells (heap s)))] s))
      = cells (heap s) ++ [cell]
      ∧ inflight cell = None
      ∧ match f id with
        | Resolves v => value cell = Some v ∧ stream cell = [v]
                        ∧ failure cell = None
        | Rejects e => value cell = None ∧ stream cell = []
                       ∧ failure cell = Some e
        end.
Proof.
  intros Hk HL Hid Hf Hr.
  unfold run. cbn [foldl step].
  rewrite (get_fresh compartment _ _ _ _ _ _ _ Hk HL Hid Hf).
  rewrite entityFactory_creates.
  cbn [fst heap set_lookup set_heap]. unfold settle. cbn [cells].
  rewrite lookup_snoc_length. cbn [inflight].
  rewrite Hr. cbn [resolve ConfiguredEntityResolver].
  destruct (f id) as [v|e]; unfold set_cell; cbn [cells resolverCalls];
    rewrite insert_snoc_length; (split; [done|]);
    eexists; (split; [reflexivity|done]).
Qed.

End Compositions.

(** X3 at the sample repository with video 1 loaded. *)
Lemma clear_then_get_reloads_witness :
  (get "videos" (inl "1") (clear "videos" (inl "1") loadedState).1).2
  = Returns 1
  ∧ resolverCalls
      (heap (get "videos" (inl "1") (clear "videos" (inl "1") loadedState).1).1)
    = resolverCalls (heap loadedState) ++ [("videos", inl "1")].
Proof.
  destruct (clear_then_get_reloads sampleCompartment loadedState "videos"
              (inl "1") 0 loadedVideosLookup ["app"] videosOptions)
    as (_ & _ & Hget & _ & _ & _ & Hcalls & _);
    [vm_compute; reflexivity | vm_compute; reflexivity | reflexivity |].
  split; [exact Hget | exact Hcalls].
Defined.

(** X4 at the sample repository with videos 1 and 2 requested: clearing
    video 1 keeps video 2. *)
Lemma clear_keeps_other_ids_witness :
  get "videos" (inl "2")
    (clear "videos" (inl "1")
       (run [CallGet "videos" (inl "2")] loadedState)).1
  = ((clear "videos" (inl "1")
        (run [CallGet "videos" (inl "2")] loadedState)).1, Returns 1).
Proof.
  apply (clear_keeps_other_ids
           (run [CallGet "videos" (inl "2")] loadedState)
           "videos" (inl "1") (inl "2") 0
           {| factory := factory videosLookup;
              values := {[ inl "1" := 0; inl "2" := 1 ]} |} 1);
    [vm_compute; reflexivity | vm_compute; reflexivity | discriminate
    | vm_compute; reflexivity].
Defined.

(** X5 at the sample repository: video 9 was never requested. *)
Lemma clear_absent_id_changes_nothing_witness :
  clear "videos" (inl "9") loadedState = (loadedState, Returns tt).
Proof.
  apply (clear_absent_id_changes_nothing loadedState "videos" (inl "9") 0
           loadedVideosLookup);
    [vm_compute; reflexivity | vm_compute; reflexivity | vm_compute; reflexivity].
Defined.

(** X7 at the sample repository with video 1 loaded. *)
Lemma reset_twice_is_reset_witness :
  reset (reset loadedState).1 = ((reset loadedState).1, Returns tt).
Proof.
  destruct (reset_twice_is_reset sampleCompartment ["app"] sampleRegistry
              loadedState "videos" 0) as [Hreset _].
  - apply built_run;
      [exact sampleRegistry_NoDup | exact sampleRegistry_registered].
  - vm_compute; reflexivity.
  - exact Hreset.
Defined.

(** X8 at the sample repository with video 1 loaded: [retitle] and
    [shout] race, [shout] pushes last and its result is built on the
    title both of them read. *)
Lemma racing_modify_last_push_wins_witness :
  value <$> cells (heap (run [ModifyResumes
                                (AwaitingModifier 0
                                   (Resolves {| video_id := "1";
                                                title := "Updated" |}));
                              ModifyResumes
                                (AwaitingModifier 0
                                   (Resolves {| video_id := "1";
                                                title := "T1!" |}))]
                           loadedState)) !! 0
  = Some (Some {| video_id := "1"; title := "T1!" |}).
Proof.
  destruct (racing_modify_last_push_wins loadedState "videos" (inl "1")
              retitle shout 0 loadedVideosLookup 0 loadedVideo
              {| video_id := "1"; title := "T1" |}
              {| video_id := "1"; title := "Updated" |}
              {| video_id := "1"; title := "T1!" |})
    as (_ & _ & _ & Hcell);
    [vm_compute; reflexivity | vm_compute; reflexivity | vm_compute; reflexivity
    | vm_compute; reflexivity | reflexivity | reflexivity | reflexivity |].
  by rewrite Hcell.
Defined.

(** X10 at the sample repository, before any video was requested. *)
Lemma second_modify_joins_the_load_witness :
  modify "videos" (inl "1") shout
    (modify "videos" (inl "1") retitle sampleState).1
  = ((modify "videos" (inl "1") retitle sampleState).1,
     Returns (AwaitingValue 0 shout)).
Proof.
  destruct (second_modify_joins_the_load sampleCompartment sampleState
              "videos" (inl "1") retitle shout 0 videosLookup ["app"]
              videosOptions)
    as (_ & Hsecond & _);
    [vm_compute; reflexivity | vm_compute; reflexivity | vm_compute; reflexivity
    | reflexivity |].
  exact Hsecond.
Defined.

(** X11 at the repository whose keys [videos] and [films] hold one
    [Lookup]. *)
Lemma shared_lookup_is_one_cache_witness :
  get "films" (inl "1") (get "videos" (inl "1") sharedState).1
  = ((get "videos" (inl "1") sharedState).1,
     (get "videos" (inl "1") sharedState).2)
  ∧ lookupHeap (clearAll "videos" sharedState).1 !! 0
    = Some {| factory := factory videosLookup; values := ∅ |}.
Proof.
  destruct (shared_lookup_is_one_cache sharedState "videos" "films" (inl "1")
              0 videosLookup)
    as (Hget & _ & Hclear);
    [vm_compute; reflexivity | vm_compute; reflexivity | reflexivity |].
  split; [exact Hget | exact Hclear].
Defined.

(** X12 at the sample registry. *)
Lemma first_get_on_new_repository_witness :
  (get "videos" (inl "1") sampleState).2 = Returns 0
  ∧ resolverCalls (heap (get "videos" (inl "1") sampleState).1)
    = [("videos", inl "1")].
Proof.
  destruct (first_get_on_new_repository sampleCompartment ["app"]
              sampleRegistry [] {| cells := []; resolverCalls := [] |}
              "videos" videosOptions (inl "1"))
    as (Hret & _ & Hcalls).
  - exact sampleRegistry_NoDup.
  - left.
  - discriminate.
  - split; [exact Hret | exact Hcalls].
Defined.

(** X13 at the sample repository: the resolver of [videos] wraps a
    function that titles video 1 [T1]. *)
Lemma wrapped_resolver_fills_compartment_witness :
  resolverCalls (heap loadedState) = [("videos", inl "1")].
Proof.
  destruct (wrapped_resolver_fills_compartment sampleCompartment sampleState
              "videos" (inl "1") 0 videosLookup ["app"] videosOptions
              (fun id =>
                 match id with
                 | inl s => Resolves {| video_id := s; title := "T" +:+ s |}
                 | inr _ => Rejects (MkError "no such video")
                 end))
    as (Hcalls & _);
    [vm_compute; reflexivity | vm_compute; reflexivity | vm_compute; reflexivity
    | reflexivity | reflexivity |].
  exact Hcalls.
Defined.

(** X1 at the repository made with the constructor for [videos] and
    [films]: [films] is found, [toString] is inherited, [books] is
    unknown. *)
Lemma constructor_registers_given_lookups_witness :
  (findLookup "films" sharedState).2 = Returns (LookupRef 0)
  ∧ (findLookup "toString" sharedState).2 = Returns (Inherited "toString")
  ∧ (findLookup "books" sharedState).2 = Throws (UnknownCategory "books").
Proof.
  pose proof (fun key =>
    proj1 (constructor_registers_given_lookups (Entity := Video)
             ["app"] [] {[ "videos" := 0; "films" := 0 ]} [videosLookup]
             {| cells := []; resolverCalls := [] |} key eq_refl)) as H.
  unfold sharedState. split; [|split].
  - rewrite (H "films"). vm_compute; reflexivity.
  - rewrite (H "toString"). vm_compute; reflexivity.
  - rewrite (H "books"). vm_compute; reflexivity.
Defined.
